(** * Sprite-sheet slicing: a shallow embedding of [sprites/slice_sprites.py]

    The pipeline is: pixel classification, border-seeded flood fill of the
    background, connected-region extraction with bounding boxes, proximity
    merging of regions, the artifact filter and ordering, and the per-sprite
    crop with its local transparency fill.

    Conventions of the embedding.
    - Python integers are [Z]; [range n] is the list [0; 1; ...; n-1].
    - A [deque] is a list: [popleft] takes the head, [append] adds at the end.
    - A Python list of booleans indexed by [y * w + x] is a [list bool] read
      with [!!] and written with [<[ _ := _ ]>]; a read out of range raises
      [IndexError], which is the outcome [IndexError] here.
    - A [while] loop is a structural recursion on a fuel counter; running out
      of fuel is the outcome [OutOfFuel], and the theorems show that the fuel
      handed over by each entry point is never exhausted.
    - A PIL image is its size and its grid of RGBA pixels.  The code reads
      and writes a pixel only after its own bounds check, so the grid is a
      total function on coordinates. *)

From Stdlib Require Import ZArith QArith Lia Bool List Permutation.
From stdpp Require Import base list gmap.

Local Open Scope Z_scope.

(** ** Outcomes of the imperative code *)

Inductive outcome (A : Type) : Type :=
| Ok (a : A)
| IndexError
| OutOfFuel.

Arguments Ok {A} a.
Arguments IndexError {A}.
Arguments OutOfFuel {A}.

#[global] Instance outcome_ret : MRet outcome := fun A a => Ok a.

#[global] Instance outcome_bind : MBind outcome := fun A B k m =>
  match m with
  | Ok a => k a
  | IndexError => IndexError
  | OutOfFuel => OutOfFuel
  end.

#[global] Instance outcome_fmap : FMap outcome := fun A B f m =>
  match m with
  | Ok a => Ok (f a)
  | IndexError => IndexError
  | OutOfFuel => OutOfFuel
  end.

(** A [for] loop whose body can raise. *)
Fixpoint for_each {A B : Type} (body : A -> B -> outcome A) (l : list B) (a : A)
    : outcome A :=
  match l with
  | [] => Ok a
  | b :: l => a' ← body a b; for_each body l a'
  end.

(** ** Pixels, images and coordinates *)

Definition pixel : Type := Z * Z * Z * Z.          (* (r, g, b, a) *)
Definition coord : Type := Z * Z.                  (* (x, y) *)

Record Image : Type := mkImage {
  im_w : Z;
  im_h : Z;
  im_px : Z -> Z -> pixel
}.

Definition getpixel (img : Image) (x y : Z) : pixel := im_px img x y.

(** [pixels[x, y] = v] *)
Definition putpixel (img : Image) (x y : Z) (v : pixel) : Image :=
  mkImage (im_w img) (im_h img)
    (fun x' y' => if (x' =? x) && (y' =? y) then v else im_px img x' y').

(** [img.crop((x1, y1, x2, y2)).copy()]: an independent image of size
    [(x2 - x1, y2 - y1)] whose pixel [(i, j)] is the source's
    [(x1 + i, y1 + j)].  A box with [x2 = x1] or [y2 = y1] gives an image
    with no pixels.  What the library does with a reversed box
    ([x2 < x1] or [y2 < y1]) depends on its version (recent ones raise
    [ValueError]); no theorem below relies on the crop of such a box. *)
Definition crop (img : Image) (x1 y1 x2 y2 : Z) : Image :=
  mkImage (x2 - x1) (y2 - y1) (fun i j => im_px img (x1 + i) (y1 + j)).

(** [range(n)] *)
Definition range (n : Z) : list Z := map Z.of_nat (seq 0 (Z.to_nat n)).

(** [[False] * n] *)
Definition all_false (n : Z) : list bool := replicate (Z.to_nat n) false.

(** The test [x < 0 or x >= w or y < 0 or y >= h] that guards every
    queue element. *)
Definition out_of_bounds (w h x y : Z) : bool :=
  (x <? 0) || (x >=? w) || (y <? 0) || (y >=? h).

Definition neighbours (x y : Z) : list coord :=
  [(x + 1, y); (x - 1, y); (x, y + 1); (x, y - 1)].

(** ** PixelClassifier: [is_background_pixel] *)

Definition Qgtb (a b : Q) : bool := negb (Qle_bool a b).

Definition is_background_pixel (r g b : Z) (threshold : Z) : bool :=
  let avg : Q := (inject_Z (r + g + b) / inject_Z 3)%Q in
  let spread := Z.max (Z.max r g) b - Z.min (Z.min r g) b in
  Qgtb avg (inject_Z 225) && (spread <? threshold).

Definition default_threshold : Z := 12.

(** ** BackgroundMask: [flood_fill_background] *)

(** The seeds, in the order the two [for] loops append them. *)
Definition border_seeds (w h : Z) : list coord :=
  flat_map (fun x => [(x, 0); (x, h - 1)]) (range w) ++
  flat_map (fun y => [(0, y); (w - 1, y)]) (range h).

(** The [while queue:] loop. *)
Fixpoint fill_loop (img : Image) (fuel : nat) (queue : list coord)
    (visited : list bool) : outcome (list bool) :=
  match queue with
  | [] => Ok visited
  | (x, y) :: queue =>
    match fuel with
    | O => OutOfFuel
    | S fuel =>
      let w := im_w img in
      let h := im_h img in
      if out_of_bounds w h x y then fill_loop img fuel queue visited
      else
        let idx := Z.to_nat (y * w + x) in
        match visited !! idx with
        | None => IndexError
        | Some true => fill_loop img fuel queue visited
        | Some false =>
          let '(r, g, b, a) := getpixel img x y in
          if negb (is_background_pixel r g b default_threshold)
          then fill_loop img fuel queue visited
          else fill_loop img fuel (queue ++ neighbours x y)
                 (<[idx := true]> visited)
        end
    end
  end.

(** Every iteration pops one element, and an iteration that pushes four
    marks a fresh cell first: [4 * length visited + length queue]
    iterations are enough. *)
Definition fill_fuel (queue : list coord) (visited : list bool) : nat :=
  (4 * length visited + length queue)%nat.

Definition flood_fill_background (img : Image) (visited : list bool)
    : outcome (list bool) :=
  let queue := border_seeds (im_w img) (im_h img) in
  fill_loop img (fill_fuel queue visited) queue visited.

(** The mask the pipeline computes: the fill started on [[False] * (w * h)]. *)
Definition background_mask (img : Image) : outcome (list bool) :=
  flood_fill_background img (all_false (im_w img * im_h img)).

(** ** RegionExtractor: [find_sprite_regions] *)

(** A region tuple [(min_x, min_y, max_x_exclusive, max_y_exclusive,
    pixel_count)]. *)
Definition region : Type := Z * Z * Z * Z * Z.

Definition pixel_count (r : region) : Z := r.2.                (* r[4] *)
Definition region_min_x (r : region) : Z := r.1.1.1.1.         (* r[0] *)
Definition region_min_y (r : region) : Z := r.1.1.1.2.         (* r[1] *)
Definition region_max_x (r : region) : Z := r.1.1.2.           (* r[2] *)
Definition region_max_y (r : region) : Z := r.1.2.             (* r[3] *)

(** The variables of one component search. *)
Record bfs_state : Type := mkBfs {
  region_visited : list bool;
  min_x : Z;
  min_y : Z;
  max_x : Z;
  max_y : Z;
  region_pixels : Z
}.

(** The inner [while queue:] loop of [find_sprite_regions]. *)
Fixpoint region_loop (visited : list bool) (w h : Z) (fuel : nat)
    (queue : list coord) (st : bfs_state) : outcome bfs_state :=
  match queue with
  | [] => Ok st
  | (cx, cy) :: queue =>
    match fuel with
    | O => OutOfFuel
    | S fuel =>
      if out_of_bounds w h cx cy then region_loop visited w h fuel queue st
      else
        let cidx := Z.to_nat (cy * w + cx) in
        match visited !! cidx with
        | None => IndexError
        | Some true => region_loop visited w h fuel queue st
        | Some false =>
          match region_visited st !! cidx with
          | None => IndexError
          | Some true => region_loop visited w h fuel queue st
          | Some false =>
            region_loop visited w h fuel (queue ++ neighbours cx cy)
              (mkBfs (<[cidx := true]> (region_visited st))
                     (Z.min (min_x st) cx) (Z.min (min_y st) cy)
                     (Z.max (max_x st) cx) (Z.max (max_y st) cy)
                     (region_pixels st + 1))
          end
        end
    end
  end.

(** The cells in the order of [for y in range(h): for x in range(w)]. *)
Definition row_major (w h : Z) : list coord :=
  flat_map (fun y => map (fun x => (x, y)) (range w)) (range h).

Definition size_ok (min_size : Z) (st : bfs_state) : bool :=
  let region_w := max_x st - min_x st + 1 in
  let region_h := max_y st - min_y st + 1 in
  (region_w >=? min_size) && (region_h >=? min_size).

Definition region_of (st : bfs_state) : region :=
  (min_x st, min_y st, max_x st + 1, max_y st + 1, region_pixels st).

(** The body of the double [for] loop, on the pair
    [(regions, region_visited)]. *)
Definition scan_cell (visited : list bool) (w h min_size : Z)
    (acc : list region * list bool) (c : coord)
    : outcome (list region * list bool) :=
  let '(regions, rv) := acc in
  let '(x, y) := c in
  let idx := Z.to_nat (y * w + x) in
  match visited !! idx with
  | None => IndexError
  | Some true => Ok acc
  | Some false =>
    match rv !! idx with
    | None => IndexError
    | Some true => Ok acc
    | Some false =>
      st ← region_loop visited w h (fill_fuel [(x, y)] rv) [(x, y)]
             (mkBfs rv x y x y 0);
      Ok (if size_ok min_size st then regions ++ [region_of st] else regions,
          region_visited st)
    end
  end.

Definition find_sprite_regions (visited : list bool) (w h min_size : Z)
    : outcome (list region) :=
  acc ← for_each (scan_cell visited w h min_size) (row_major w h)
          ([], all_false (w * h));
  Ok acc.1.

(** *** The same search, recording which cells each component collects

    [find_sprite_regions] keeps only a box and a count per component.  To
    speak about the pixels of a component, the loops below are the loops
    above with one more variable: the cells marked, in marking order.
    [find_sprite_regions_erasure] shows that forgetting it gives back the
    code. *)

Record component : Type := mkComponent {
  comp_cells : list coord;
  comp_state : bfs_state
}.

Fixpoint region_loop_trace (visited : list bool) (w h : Z) (fuel : nat)
    (queue : list coord) (st : bfs_state) (cells : list coord)
    : outcome (bfs_state * list coord) :=
  match queue with
  | [] => Ok (st, cells)
  | (cx, cy) :: queue =>
    match fuel with
    | O => OutOfFuel
    | S fuel =>
      if out_of_bounds w h cx cy
      then region_loop_trace visited w h fuel queue st cells
      else
        let cidx := Z.to_nat (cy * w + cx) in
        match visited !! cidx with
        | None => IndexError
        | Some true => region_loop_trace visited w h fuel queue st cells
        | Some false =>
          match region_visited st !! cidx with
          | None => IndexError
          | Some true => region_loop_trace visited w h fuel queue st cells
          | Some false =>
            region_loop_trace visited w h fuel (queue ++ neighbours cx cy)
              (mkBfs (<[cidx := true]> (region_visited st))
                     (Z.min (min_x st) cx) (Z.min (min_y st) cy)
                     (Z.max (max_x st) cx) (Z.max (max_y st) cy)
                     (region_pixels st + 1))
              (cells ++ [(cx, cy)])
          end
        end
    end
  end.

Definition scan_cell_trace (visited : list bool) (w h : Z)
    (acc : list component * list bool) (c : coord)
    : outcome (list component * list bool) :=
  let '(comps, rv) := acc in
  let '(x, y) := c in
  let idx := Z.to_nat (y * w + x) in
  match visited !! idx with
  | None => IndexError
  | Some true => Ok acc
  | Some false =>
    match rv !! idx with
    | None => IndexError
    | Some true => Ok acc
    | Some false =>
      '(st, cells) ← region_loop_trace visited w h (fill_fuel [(x, y)] rv)
                       [(x, y)] (mkBfs rv x y x y 0) [];
      Ok (comps ++ [mkComponent cells st], region_visited st)
    end
  end.

(** Every component the scan collects, before the size test. *)
Definition extract_components (visited : list bool) (w h : Z)
    : outcome (list component) :=
  acc ← for_each (scan_cell_trace visited w h) (row_major w h)
          ([], all_false (w * h));
  Ok acc.1.

Definition comp_width (c : component) : Z :=
  max_x (comp_state c) - min_x (comp_state c) + 1.
Definition comp_height (c : component) : Z :=
  max_y (comp_state c) - min_y (comp_state c) + 1.

(** ** RegionMerger: [merge_close_regions] *)

(** The test of lines 120-121, with [a] the running box [(x1, y1, x2, y2)]
    and [b] the candidate [(bx1, by1, bx2, by2)]. *)
Definition close_enough (gap : Z) (a b : region) : bool :=
  let '(x1, y1, x2, y2, _) := a in
  let '(bx1, by1, bx2, by2, _) := b in
  (x1 - gap <=? bx2) && (x2 + gap >=? bx1) &&
  (y1 - gap <=? by2) && (y2 + gap >=? by1).

(** Lines 122-126: the box grows to the union of extents and the count is
    added. *)
Definition absorb (a b : region) : region :=
  let '(x1, y1, x2, y2, p1) := a in
  let '(bx1, by1, bx2, by2, p2) := b in
  (Z.min x1 bx1, Z.min y1 by1, Z.max x2 bx2, Z.max y2 by2, p1 + p2).

(** The body of [for j in range(i + 1, len(regions))], on
    [((x1, y1, x2, y2, p1), used, merged)].  The index [j] comes from the
    [range], so [regions[j]] is always there. *)
Definition merge_inner (gap : Z) (regions : list region)
    (st : region * gset nat * bool) (j : nat) : region * gset nat * bool :=
  let '(cur, used, merged) := st in
  if decide (j ∈ used) then st
  else
    match regions !! j with
    | None => st
    | Some rj =>
      if close_enough gap cur rj
      then (absorb cur rj, used ∪ {[j]}, true)
      else st
    end.

(** The body of [for i in range(len(regions))], on
    [(new_regions, used, merged)]. *)
Definition merge_outer (gap : Z) (regions : list region)
    (st : list region * gset nat * bool) (i : nat)
    : list region * gset nat * bool :=
  let '(new_regions, used, merged) := st in
  if decide (i ∈ used) then st
  else
    match regions !! i with
    | None => st
    | Some ri =>
      let '(cur, used, merged) :=
        foldl (merge_inner gap regions) (ri, used, merged)
              (seq (S i) (length regions - S i)) in
      (new_regions ++ [cur], used ∪ {[i]}, merged)
    end.

(** One trip through the body of [while merged:]; the result is
    [(new_regions, merged)]. *)
Definition merge_pass (gap : Z) (regions : list region) : list region * bool :=
  let '(new_regions, _, merged) :=
    foldl (merge_outer gap regions) ([], ∅, false) (seq 0 (length regions)) in
  (new_regions, merged).

Fixpoint merge_loop (gap : Z) (fuel : nat) (regions : list region)
    : outcome (list region) :=
  match fuel with
  | O => OutOfFuel
  | S fuel =>
    let '(new_regions, merged) := merge_pass gap regions in
    if merged then merge_loop gap fuel new_regions else Ok new_regions
  end.

(** A pass that merges shortens the list, so [len(regions)] passes and the
    last, idle one are enough. *)
Definition merge_close_regions (regions : list region) (gap : Z)
    : outcome (list region) :=
  match regions with
  | [] => Ok regions
  | _ => merge_loop gap (S (length regions)) regions
  end.

(** *** The pass as a recursion on the list

    [absorb_later] is the inner loop run on the regions still unused: it
    returns the grown box, the regions it kept and whether it merged.
    [pass_rec] is the outer loop and [loop_rec] the [while].  They are
    written over any carrier with a closeness test and a join, so that the
    same loops run on regions and on regions tagged with the inputs they
    stand for.  [merge_pass_rec] shows that the pass of the code, with its
    indices and its [used] set, computes [pass_rec] on regions. *)
Section MergeRec.
Context {T : Type} (close : T -> T -> bool) (join : T -> T -> T).

Fixpoint absorb_later (cur : T) (rest : list T) : T * list T * bool :=
  match rest with
  | [] => (cur, [], false)
  | r :: rest =>
    if close cur r
    then let '(cur', kept, _) := absorb_later (join cur r) rest in
         (cur', kept, true)
    else let '(cur', kept, m) := absorb_later cur rest in
         (cur', r :: kept, m)
  end.

Fixpoint pass_rec (fuel : nat) (l : list T) : list T * bool :=
  match fuel with
  | O => ([], false)
  | S fuel =>
    match l with
    | [] => ([], false)
    | r :: rest =>
      let '(cur, kept, m) := absorb_later r rest in
      let '(out, m') := pass_rec fuel kept in
      (cur :: out, m || m')
    end
  end.

Fixpoint loop_rec (fuel : nat) (l : list T) : outcome (list T) :=
  match fuel with
  | O => OutOfFuel
  | S fuel =>
    let '(out, merged) := pass_rec (length l) l in
    if merged then loop_rec fuel out else Ok out
  end.
End MergeRec.

(** A region together with the input regions merged into it. *)
Definition tagged : Type := region * list region.

Definition tag (r : region) : tagged := (r, [r]).

Definition close_tagged (gap : Z) (a b : tagged) : bool :=
  close_enough gap a.1 b.1.

Definition join_tagged (a b : tagged) : tagged :=
  (absorb a.1 b.1, a.2 ++ b.2).

Definition sum_counts (rs : list region) : Z :=
  foldr (fun r acc => pixel_count r + acc) 0 rs.

(** [o] is the first region of [g] after absorbing the others in turn: its
    box is the union of their extents and its count the sum of theirs. *)
Definition is_union (o : region) (g : list region) : Prop :=
  exists r rs, g = r :: rs /\ o = foldl absorb r rs.

(** ** SpriteCutter: [make_background_transparent] and the crop loop *)

(** The [while queue:] loop of [make_background_transparent]. *)
Fixpoint transparent_loop (fuel : nat) (queue : list coord)
    (visited : list bool) (sprite_img : Image) : outcome (list bool * Image) :=
  match queue with
  | [] => Ok (visited, sprite_img)
  | (x, y) :: queue =>
    match fuel with
    | O => OutOfFuel
    | S fuel =>
      let w := im_w sprite_img in
      let h := im_h sprite_img in
      if out_of_bounds w h x y
      then transparent_loop fuel queue visited sprite_img
      else
        let idx := Z.to_nat (y * w + x) in
        match visited !! idx with
        | None => IndexError
        | Some true => transparent_loop fuel queue visited sprite_img
        | Some false =>
          let '(r, g, b, a) := getpixel sprite_img x y in
          if negb (is_background_pixel r g b default_threshold)
          then transparent_loop fuel queue visited sprite_img
          else transparent_loop fuel (queue ++ neighbours x y)
                 (<[idx := true]> visited)
                 (putpixel sprite_img x y (r, g, b, 0))
        end
    end
  end.

(** The function's local variables at its [return]: the mask and the
    image. *)
Definition transparent_run (sprite_img : Image) : outcome (list bool * Image) :=
  let w := im_w sprite_img in
  let h := im_h sprite_img in
  let visited := all_false (w * h) in
  let queue := border_seeds w h in
  transparent_loop (fill_fuel queue visited) queue visited sprite_img.

Definition make_background_transparent (sprite_img : Image) : outcome Image :=
  res ← transparent_run sprite_img;
  Ok res.2.

(** Lines 206-210: the padded box, clamped to the sheet. *)
Definition crop_box (w h : Z) (r : region) : Z * Z * Z * Z :=
  let '(x1, y1, x2, y2, _) := r in
  let pad := 2 in
  (Z.max 0 (x1 - pad), Z.max 0 (y1 - pad),
   Z.min w (x2 + pad), Z.min h (y2 + pad)).

Definition box_width (b : Z * Z * Z * Z) : Z := b.1.2 - b.1.1.1.
Definition box_height (b : Z * Z * Z * Z) : Z := b.2 - b.1.1.2.

(** One call of [sprite.save]: the 1-based number in the file name and the
    buffer handed over. *)
Record saved : Type := mkSaved {
  saved_number : nat;
  saved_image : Image
}.

(** The body of the crop loop for the region at position [i]: the buffer it
    hands to [save] and the sizes it appends to [sprites].  The library
    raises [ValueError] in [img.crop] when the box is reversed and in
    [sprite.save] when the buffer has no pixels, and the code catches
    neither.  These two failures are not modelled: this is the body of the
    loop on a crop box of positive width and height, which is the only kind
    that [slice_spritesheet] hands to it, as shown below for every sheet. *)
Definition cut_sprite (img : Image) (i : nat) (r : region)
    : outcome (saved * (Z * Z)) :=
  let '(x1, y1, x2, y2) := crop_box (im_w img) (im_h img) r in
  let sprite := crop img x1 y1 x2 y2 in
  sprite ← make_background_transparent sprite;
  Ok (mkSaved (S i) sprite, (x2 - x1, y2 - y1)).

(** [for i, (x1, y1, x2, y2, pixel_count) in enumerate(regions)], with [i]
    starting at [start]; like [cut_sprite], on regions whose crop boxes
    have positive width and height. *)
Fixpoint cut_sprites (img : Image) (start : nat) (regions : list region)
    : outcome (list (saved * (Z * Z))) :=
  match regions with
  | [] => Ok []
  | r :: regions =>
    s ← cut_sprite img start r;
    rest ← cut_sprites img (S start) regions;
    Ok (s :: rest)
  end.

(** ** The orchestration of [slice_spritesheet]

    The input is the sheet as [Image.open(filepath).convert("RGBA")] returns
    it; the [print] calls are left out; the calls of [sprite.save] are the
    [saved] entries of the result, next to the sizes appended to
    [sprites]. *)

(** Line 195: [[r for r in regions if r[4] > 500]]. *)
Definition drop_artifacts (regions : list region) : list region :=
  filter (fun r => 500 < pixel_count r) regions.

(** Line 198: the key [(r[1] // 50, r[0])] and the order of Python tuples. *)
Definition sort_key (r : region) : Z * Z :=
  (region_min_y r / 50, region_min_x r).

Definition key_le (a b : Z * Z) : bool :=
  (a.1 <? b.1) || ((a.1 =? b.1) && (a.2 <=? b.2)).

(** [list.sort] is stable; so is this insertion sort. *)
Fixpoint insert_by_key (r : region) (l : list region) : list region :=
  match l with
  | [] => [r]
  | r' :: l' =>
    if key_le (sort_key r) (sort_key r') then r :: l
    else r' :: insert_by_key r l'
  end.

Definition sort_regions (regions : list region) : list region :=
  foldr insert_by_key [] regions.

(** Steps 1 to 3, the filter and the sort: the regions that reach the crop
    loop. *)
Definition sheet_regions (img : Image) : outcome (list region) :=
  let w := im_w img in
  let h := im_h img in
  visited ← flood_fill_background img (all_false (w * h));
  regions ← find_sprite_regions visited w h 30;
  regions ← merge_close_regions regions 3;
  Ok (sort_regions (drop_artifacts regions)).

Definition slice_spritesheet (img : Image) : outcome (list (saved * (Z * Z))) :=
  regions ← sheet_regions img;
  cut_sprites img 0 regions.

(** ** The spec's wording of the classifier

    "A pixel is background-like when its average channel intensity exceeds
    225 AND its max-minus-min channel spread is below a threshold of 12." *)
Definition average_intensity (r g b : Z) : Q :=
  (inject_Z (r + g + b) / inject_Z 3)%Q.

Definition channel_spread (r g b : Z) : Z :=
  Z.max r (Z.max g b) - Z.min r (Z.min g b).

Definition background_like (r g b : Z) : Prop :=
  (inject_Z 225 < average_intensity r g b)%Q /\ channel_spread r g b < 12.

(** ** Marking by work list, once for all three fills *)

Definition cell_index (w x y : Z) : nat := Z.to_nat (y * w + x).

Definition inside (w h x y : Z) : Prop := 0 <= x < w /\ 0 <= y < h.

(** The three [while queue:] loops share their skeleton: pop, skip a cell
    that is outside, already marked or not passable, otherwise mark it and
    push its four neighbours.  [mark_loop] is that skeleton; it returns the
    marks and the cells it marked, first marked first. *)
Fixpoint mark_loop (pass : Z -> Z -> bool) (w h : Z) (fuel : nat)
    (queue : list coord) (marks : list bool)
    : outcome (list bool * list coord) :=
  match queue with
  | [] => Ok (marks, [])
  | (x, y) :: queue =>
    match fuel with
    | O => OutOfFuel
    | S fuel =>
      if out_of_bounds w h x y then mark_loop pass w h fuel queue marks
      else
        match marks !! cell_index w x y with
        | None => IndexError
        | Some true => mark_loop pass w h fuel queue marks
        | Some false =>
          if negb (pass x y) then mark_loop pass w h fuel queue marks
          else
            '(marks', cells) ← mark_loop pass w h fuel
                                 (queue ++ neighbours x y)
                                 (<[cell_index w x y := true]> marks);
            Ok (marks', (x, y) :: cells)
        end
    end
  end.

(** The cells that a 4-connected path of passable cells inside the grid
    joins to a seed. *)
Inductive reach (pass : Z -> Z -> bool) (w h : Z) (seed : coord -> Prop)
    : coord -> Prop :=
| reach_seed x y :
    seed (x, y) -> inside w h x y -> pass x y = true ->
    reach pass w h seed (x, y)
| reach_step x y x' y' :
    reach pass w h seed (x, y) ->
    In (x', y') (neighbours x y) ->
    inside w h x' y' -> pass x' y' = true ->
    reach pass w h seed (x', y').

Fixpoint count_false (l : list bool) : nat :=
  match l with
  | [] => O
  | b :: l => ((if b then 0 else 1) + count_false l)%nat
  end.

(** What a run of [mark_loop] from [queue] and [marks] achieves when it
    returns [marks'] and [cells]. *)
Record marked_by (pass : Z -> Z -> bool) (w h : Z) (queue : list coord)
    (marks marks' : list bool) (cells : list coord) : Prop := {
  mb_length : length marks' = length marks;
  mb_marks : forall i,
    marks' !! i = Some true <->
    marks !! i = Some true \/
    exists x y, In (x, y) cells /\ i = cell_index w x y;
  mb_nodup : NoDup cells;
  mb_cells : forall x y, In (x, y) cells ->
    inside w h x y /\ pass x y = true /\
    marks !! cell_index w x y = Some false /\
    reach pass w h (fun c => In c queue) (x, y);
  mb_queue : forall x y, In (x, y) queue ->
    inside w h x y -> pass x y = true ->
    marks' !! cell_index w x y = Some true;
  mb_closed : forall x y x' y', In (x, y) cells ->
    In (x', y') (neighbours x y) ->
    inside w h x' y' -> pass x' y' = true ->
    marks' !! cell_index w x' y' = Some true
}.


(** ** Background reachability

    "Reachable from the image edge through background-like pixels only." *)

(** The classification of the pixel at [(x, y)], as both fills test it. *)
Definition is_bg (img : Image) (x y : Z) : bool :=
  let '(r, g, b, a) := getpixel img x y in
  is_background_pixel r g b default_threshold.

(** Top row, bottom row, left column or right column. *)
Definition on_border (w h : Z) (c : coord) : Prop :=
  c.1 = 0 \/ c.1 = w - 1 \/ c.2 = 0 \/ c.2 = h - 1.

Definition bg_reachable (img : Image) (c : coord) : Prop :=
  reach (is_bg img) (im_w img) (im_h img) (on_border (im_w img) (im_h img)) c.

(** Line 165, [pixels[x, y] = (r, g, b, 0)], as a step on the image. *)
Definition clear_alpha (img : Image) (c : coord) : Image :=
  let '(r, g, b, a) := getpixel img c.1 c.2 in
  putpixel img c.1 c.2 (r, g, b, 0).

(** The pixel with its alpha channel set to 0 and R, G, B as they were. *)
Definition with_alpha_zero (p : pixel) : pixel :=
  let '(r, g, b, a) := p in (r, g, b, 0).

(** ** Foreground components *)

(** A pixel that the background mask does not mark. *)
Definition fg (visited : list bool) (w : Z) (x y : Z) : bool :=
  match visited !! cell_index w x y with
  | Some false => true
  | _ => false
  end.

(** Lines 79-85: the update of the search variables at a collected cell. *)
Definition bbox_step (w : Z) (st : bfs_state) (c : coord) : bfs_state :=
  mkBfs (<[cell_index w c.1 c.2 := true]> (region_visited st))
        (Z.min (min_x st) c.1) (Z.min (min_y st) c.2)
        (Z.max (max_x st) c.1) (Z.max (max_y st) c.2)
        (region_pixels st + 1).

(** [cells] is a connected component of the foreground: all the cells that
    a 4-connected path of foreground cells joins to one of them. *)
Definition connected_component (visited : list bool) (w h : Z)
    (cells : list coord) : Prop :=
  exists s, In s cells /\
    forall c, In c cells <-> reach (fg visited w) w h (fun s' => s' = s) c.

(** The box and the count of [st] are those of [cells]: the box contains
    every cell, each of its four sides touches one, and the count is the
    number of cells. *)
Record is_bbox (st : bfs_state) (cells : list coord) : Prop := {
  bb_contains : forall x y, In (x, y) cells ->
    min_x st <= x <= max_x st /\ min_y st <= y <= max_y st;
  bb_left : exists y, In (min_x st, y) cells;
  bb_right : exists y, In (max_x st, y) cells;
  bb_top : exists x, In (x, min_y st) cells;
  bb_bottom : exists x, In (x, max_y st) cells;
  bb_count : region_pixels st = Z.of_nat (length cells)
}.

Definition all_cells (comps : list component) : list coord :=
  concat (map comp_cells comps).

(** What the pair [(components, region_visited)] satisfies between two
    iterations of the scan. *)
Record scan_inv (visited : list bool) (w h : Z) (comps : list component)
    (rv : list bool) : Prop := {
  si_length : length rv = Z.to_nat (w * h);
  si_marks : forall i,
    rv !! i = Some true <->
    exists x y, In (x, y) (all_cells comps) /\ i = cell_index w x y;
  si_nodup : NoDup (all_cells comps);
  si_closed : forall x y x' y',
    inside w h x y -> rv !! cell_index w x y = Some true ->
    In (x', y') (neighbours x y) -> inside w h x' y' ->
    fg visited w x' y' = true ->
    rv !! cell_index w x' y' = Some true;
  si_comps : Forall (fun c =>
    connected_component visited w h (comp_cells c) /\
    is_bbox (comp_state c) (comp_cells c)) comps
}.

(** The regions [find_sprite_regions] appends for a list of collected
    components: those that pass the size test of line 95, in order. *)
Definition kept_regions (min_size : Z) (comps : list component) : list region :=
  map (fun c => region_of (comp_state c))
      (filter (fun c => size_ok min_size (comp_state c) = true) comps).

(** "Region boxes are always well-formed", within a sheet of size
    [w] by [h]. *)
Definition well_formed (w h : Z) (r : region) : Prop :=
  (0 <= region_min_x r /\ region_min_x r < region_max_x r /\
   region_max_x r <= w) /\
  (0 <= region_min_y r /\ region_min_y r < region_max_y r /\
   region_max_y r <= h).

(** The crop of line 212 for a region. *)
Definition crop_of (img : Image) (r : region) : Image :=
  let '(x1, y1, x2, y2) := crop_box (im_w img) (im_h img) r in
  crop img x1 y1 x2 y2.

(** ** Auxiliary notions for the merger *)

(** The regions of [l] (the part of [regions] from index [k] on) whose index is
    not in [used]. *)
Fixpoint live (used : gset nat) (k : nat) (l : list region) : list region :=
  match l with
  | [] => []
  | r :: l => if decide (k ∈ used) then live used (S k) l
              else r :: live used (S k) l
  end.


(** What every tagged list of the loop satisfies: each tag is the group its
    region stands for, and the groups together are the input. *)
Definition tags_ok (input : list region) (l : list tagged) : Prop :=
  Forall (fun t => is_union t.1 t.2) l /\
  Permutation (concat (map snd l)) input.

(** ** Notions for the further properties *)

(** The box of [o] contains the box of [r]. *)
Definition box_contains (o r : region) : Prop :=
  region_min_x o <= region_min_x r /\ region_max_x r <= region_max_x o /\
  region_min_y o <= region_min_y r /\ region_max_y r <= region_max_y o.

(** Two boxes [(x1, y1, x2, y2)], right and bottom edges excluded, share no
    pixel. *)
Definition boxes_disjoint (a b : Z * Z * Z * Z) : Prop :=
  a.1.2 <= b.1.1.1 \/ b.1.2 <= a.1.1.1 \/ a.2 <= b.1.1.2 \/ b.2 <= a.1.1.2.

Definition region_width (r : region) : Z := region_max_x r - region_min_x r.
Definition region_height (r : region) : Z := region_max_y r - region_min_y r.

(** No region of [l] passes the closeness test against a later one. *)
Definition far_apart (gap : Z) (l : list region) : Prop :=
  forall i j ri rj, (i < j)%nat -> l !! i = Some ri -> l !! j = Some rj ->
    close_enough gap ri rj = false.

(** The order of line 198: the row bucket [r[1] // 50] first, then
    [r[0]]. *)
Definition key_ordered (a b : region) : Prop :=
  key_le (sort_key a) (sort_key b) = true.

(** What steps 1 to 3 keep for every region: it lies within the sheet and
    its box is at least [min_size] wide and high. *)
Definition sized_in_sheet (w h min_size : Z) (r : region) : Prop :=
  well_formed w h r /\
  min_size <= region_width r /\ min_size <= region_height r.

(* ================================================================= *)
(** * Theorems *)
(* ================================================================= *)

(** ** PixelClassifier *)

Lemma average_exceeds_iff (r g b : Z) :
  (inject_Z 225 < average_intensity r g b)%Q <-> 675 < r + g + b.
Proof.
  unfold average_intensity, Qlt, Qdiv, Qinv, Qmult, inject_Z. simpl. lia.
Qed.

Lemma Qgtb_true_iff (a b : Q) : Qgtb a b = true <-> (b < a)%Q.
Proof.
  unfold Qgtb. rewrite negb_true_iff, <- not_true_iff_false, Qle_bool_iff.
  split; [apply Qnot_le_lt | apply Qlt_not_le].
Qed.

Lemma is_background_pixel_int (r g b t : Z) :
  is_background_pixel r g b t = true <->
  675 < r + g + b /\ Z.max (Z.max r g) b - Z.min (Z.min r g) b < t.
Proof.
  unfold is_background_pixel.
  rewrite andb_true_iff, Qgtb_true_iff, Z.ltb_lt.
  fold (average_intensity r g b). rewrite average_exceeds_iff. tauto.
Qed.

(** C4: on channels in 0..255, [is_background_pixel] (with its default
    threshold 12) answers true exactly when the average channel intensity
    [(r + g + b) / 3] exceeds 225 and the max-minus-min spread is strictly
    below 12, and false exactly otherwise: it is a total, pure function of
    [(r, g, b)]. *)
Theorem is_background_pixel_correct (r g b : Z) :
  0 <= r <= 255 -> 0 <= g <= 255 -> 0 <= b <= 255 ->
  (is_background_pixel r g b default_threshold = true <-> background_like r g b) /\
  (is_background_pixel r g b default_threshold = false <-> ~ background_like r g b).
Proof.
  intros _ _ _.
  assert (E : is_background_pixel r g b default_threshold = true
              <-> background_like r g b).
  { rewrite is_background_pixel_int. unfold background_like, channel_spread.
    rewrite average_exceeds_iff. unfold default_threshold. lia. }
  split; [exact E|].
  rewrite <- E. destruct (is_background_pixel r g b default_threshold);
    split; intros; congruence.
Qed.

Lemma is_background_pixel_correct_witness :
  (is_background_pixel 255 250 246 default_threshold = true <->
     background_like 255 250 246) /\
  (is_background_pixel 255 250 246 default_threshold = false <->
     ~ background_like 255 250 246).
Proof. apply (is_background_pixel_correct 255 250 246); lia. Defined.

(** ** The artifact filter *)

Lemma drop_artifacts_cons (r : region) (regions : list region) :
  drop_artifacts (r :: regions) =
  if decide (pixel_count r <= 500) then drop_artifacts regions
  else r :: drop_artifacts regions.
Proof.
  unfold drop_artifacts. destruct (decide (pixel_count r <= 500)).
  - apply filter_cons_False. lia.
  - apply filter_cons_True. lia.
Qed.

(** C8: the filter after merging keeps the order of the list and drops
    exactly the regions whose [pixel_count] is at most 500: a region stays
    if and only if its count is not [<= 500]; a region with count exactly
    500 is dropped and one with count 501 is kept. *)
Theorem drop_artifacts_threshold (regions : list region) (x1 y1 x2 y2 : Z) :
  (forall r, In r (drop_artifacts regions) <->
             In r regions /\ ~ pixel_count r <= 500) /\
  (forall r, drop_artifacts (r :: regions) =
             if decide (pixel_count r <= 500) then drop_artifacts regions
             else r :: drop_artifacts regions) /\
  drop_artifacts ((x1, y1, x2, y2, 500) :: regions) = drop_artifacts regions /\
  drop_artifacts ((x1, y1, x2, y2, 501) :: regions) =
    (x1, y1, x2, y2, 501) :: drop_artifacts regions.
Proof.
  split; [|split; [|split]].
  - intros r. rewrite <- !list_elem_of_In. unfold drop_artifacts.
    rewrite list_elem_of_filter. split; intros [? ?]; split; auto; lia.
  - intros r. apply drop_artifacts_cons.
  - by rewrite drop_artifacts_cons.
  - by rewrite drop_artifacts_cons.
Qed.

(** ** Cells and their indices *)

Lemma out_of_bounds_false (w h x y : Z) :
  out_of_bounds w h x y = false <-> inside w h x y.
Proof.
  unfold out_of_bounds, inside.
  rewrite !orb_false_iff, !Z.ltb_ge, !Z.geb_leb, !Z.leb_gt. lia.
Qed.

Lemma out_of_bounds_true (w h x y : Z) :
  out_of_bounds w h x y = true <-> ~ inside w h x y.
Proof.
  rewrite <- out_of_bounds_false. destruct (out_of_bounds w h x y); split; auto; congruence.
Qed.

Lemma cell_index_lt (w h x y : Z) :
  inside w h x y -> (cell_index w x y < Z.to_nat (w * h))%nat.
Proof. unfold inside, cell_index. intros. apply Z2Nat.inj_lt; nia. Qed.

Lemma cell_index_inj (w h x y x' y' : Z) :
  inside w h x y -> inside w h x' y' ->
  cell_index w x y = cell_index w x' y' -> x = x' /\ y = y'.
Proof.
  unfold inside, cell_index. intros H H' E.
  apply Z2Nat.inj in E; [|nia|nia].
  assert (y = y') by nia. subst. lia.
Qed.

Lemma count_false_insert (l : list bool) (i : nat) :
  l !! i = Some false ->
  S (count_false (<[i := true]> l)) = count_false l.
Proof.
  revert i. induction l as [|b l IH]; intros i; [done|].
  destruct i as [|i]; simpl.
  - intros [= ->]. done.
  - intros H. apply IH in H. lia.
Qed.

Lemma count_false_le (l : list bool) : (count_false l <= length l)%nat.
Proof. induction l as [|[] l IH]; simpl; lia. Qed.

Lemma reach_mono (pass : Z -> Z -> bool) (w h : Z) (s1 s2 : coord -> Prop) (c : coord) :
  (forall x y, s1 (x, y) -> inside w h x y -> pass x y = true ->
               reach pass w h s2 (x, y)) ->
  reach pass w h s1 c -> reach pass w h s2 c.
Proof.
  intros H. induction 1 as [x y Hs Hi Hp | x y x' y' _ IH Hn Hi Hp].
  - by apply H.
  - by eapply reach_step.
Qed.

(** ** The marking loop *)

Section MarkLoop.
Context (pass : Z -> Z -> bool) (w h : Z).

(** Skipping the head of the queue: legitimate whenever the head needs no
    mark. *)
Lemma marked_by_skip (x y : Z) (queue : list coord)
    (marks marks' : list bool) (cells : list coord) :
  (inside w h x y -> pass x y = true ->
   marks !! cell_index w x y = Some true) ->
  marked_by pass w h queue marks marks' cells ->
  marked_by pass w h ((x, y) :: queue) marks marks' cells.
Proof.
  intros Hhead [HL HM HN HC HQ HD]. split; auto.
  - intros x0 y0 Hin. destruct (HC x0 y0 Hin) as (? & ? & ? & HR).
    do 3 (split; [done|]).
    eapply reach_mono; [|exact HR]. intros. apply reach_seed; auto.
    by right.
  - intros x0 y0 [[= <- <-]|Hin] Hi Hp; [|by apply HQ].
    apply HM. left. by apply Hhead.
Qed.

(** Marking the head and pushing its neighbours. *)
Lemma marked_by_mark (x y : Z) (queue : list coord)
    (marks marks' : list bool) (cells : list coord) :
  inside w h x y -> pass x y = true ->
  marks !! cell_index w x y = Some false ->
  marked_by pass w h (queue ++ neighbours x y)
    (<[cell_index w x y := true]> marks) marks' cells ->
  marked_by pass w h ((x, y) :: queue) marks marks' ((x, y) :: cells).
Proof.
  intros Hi Hp Hm [HL HM HN HC HQ HD].
  assert (Hlt : (cell_index w x y < length marks)%nat)
    by (by eapply lookup_lt_Some).
  assert (Hself : marks' !! cell_index w x y = Some true).
  { apply HM. left. by apply list_lookup_insert_eq. }
  assert (Hfresh : forall x0 y0, In (x0, y0) cells ->
            cell_index w x0 y0 <> cell_index w x y).
  { intros x0 y0 Hin E. destruct (HC x0 y0 Hin) as (_ & _ & Hf & _).
    rewrite E, list_lookup_insert_eq in Hf by done. discriminate. }
  split.
  - by rewrite HL, length_insert.
  - intros i. rewrite HM. split.
    + intros [Hins|(x0 & y0 & Hin & ->)].
      * destruct (decide (i = cell_index w x y)) as [->|Hne].
        -- right. exists x, y. split; [by left|done].
        -- left. by rewrite list_lookup_insert_ne in Hins.
      * right. exists x0, y0. split; [by right|done].
    + intros [Hold|(x0 & y0 & [[= <- <-]|Hin] & ->)].
      * left. destruct (decide (i = cell_index w x y)) as [->|Hne].
        -- by apply list_lookup_insert_eq.
        -- by rewrite list_lookup_insert_ne.
      * left. by apply list_lookup_insert_eq.
      * right. by exists x0, y0.
  - constructor; [|done]. intros Hin%list_elem_of_In. by apply (Hfresh x y).
  - intros x0 y0 [[= <- <-]|Hin].
    { do 3 (split; [done|]). apply reach_seed; auto. by left. }
    destruct (HC x0 y0 Hin) as (Hi0 & Hp0 & Hf & HR).
    do 2 (split; [done|]). split.
    + rewrite list_lookup_insert_ne in Hf; [done|].
      intros E. by apply (Hfresh x0 y0).
    + eapply reach_mono; [|exact HR].
      intros x1 y1 [Hq|Hn]%in_app_iff Hi1 Hp1.
      * apply reach_seed; auto. by right.
      * apply (reach_step _ _ _ _ x y); auto.
        apply reach_seed; auto. by left.
  - intros x0 y0 [[= <- <-]|Hin] Hi0 Hp0; [done|].
    apply HQ; auto. apply in_app_iff. by left.
  - intros x0 y0 x' y' [[= <- <-]|Hin] Hn Hi' Hp'.
    + apply HQ; auto. apply in_app_iff. by right.
    + by apply (HD x0 y0).
Qed.

(** The loop returns within its fuel, without an index error, and does
    what [marked_by] says. *)
Lemma mark_loop_spec (fuel : nat) (queue : list coord) (marks : list bool) :
  length marks = Z.to_nat (w * h) ->
  (4 * count_false marks + length queue <= fuel)%nat ->
  exists marks' cells,
    mark_loop pass w h fuel queue marks = Ok (marks', cells) /\
    marked_by pass w h queue marks marks' cells.
Proof.
  revert queue marks.
  induction fuel as [|fuel IH]; intros queue marks HL Hfuel.
  - destruct queue; simpl in Hfuel; [|lia].
    exists marks, []. split; [done|].
    split; auto; try (intros; simpl in *; tauto); [|constructor].
    intros i. split; [auto|]. by intros [|(? & ? & [] & _)].
  - destruct queue as [|[x y] queue].
    { exists marks, []. split; [done|].
      split; auto; try (intros; simpl in *; tauto); [|constructor].
      intros i. split; [auto|]. by intros [|(? & ? & [] & _)]. }
    cbn [mark_loop]. simpl in Hfuel.
    destruct (out_of_bounds w h x y) eqn:Hob.
    { destruct (IH queue marks HL ltac:(lia)) as (m' & cs & -> & HM).
      exists m', cs. split; [done|]. apply marked_by_skip; auto.
      intros Hi. by apply out_of_bounds_true in Hob. }
    apply out_of_bounds_false in Hob.
    pose proof (cell_index_lt _ _ _ _ Hob) as Hlt. rewrite <- HL in Hlt.
    destruct (lookup_lt_is_Some_2 _ _ Hlt) as [b Hb]. rewrite Hb.
    destruct b.
    { destruct (IH queue marks HL ltac:(lia)) as (m' & cs & -> & HM).
      exists m', cs. split; [done|]. by apply marked_by_skip. }
    destruct (pass x y) eqn:Hp; simpl.
    2:{ destruct (IH queue marks HL ltac:(lia)) as (m' & cs & -> & HM).
        exists m', cs. split; [done|]. apply marked_by_skip; auto.
        congruence. }
    pose proof (count_false_insert _ _ Hb) as Hcf.
    destruct (IH (queue ++ neighbours x y) (<[cell_index w x y := true]> marks))
      as (m' & cs & -> & HM).
    { by rewrite length_insert. }
    { rewrite length_app. simpl. lia. }
    exists m', ((x, y) :: cs). split; [done|]. by apply marked_by_mark.
Qed.
End MarkLoop.

(** ** BackgroundMask *)

Lemma In_range (n x : Z) : In x (range n) <-> 0 <= x < n.
Proof.
  unfold range. rewrite in_map_iff. split.
  - intros (k & <- & Hk%in_seq). lia.
  - intros H. exists (Z.to_nat x). split; [lia|]. apply in_seq. lia.
Qed.

Lemma In_border_seeds (w h x y : Z) :
  In (x, y) (border_seeds w h) <->
  (0 <= x < w /\ (y = 0 \/ y = h - 1)) \/
  (0 <= y < h /\ (x = 0 \/ x = w - 1)).
Proof.
  unfold border_seeds. rewrite in_app_iff, !in_flat_map.
  split.
  - intros [(x0 & Hx & Hin)|(y0 & Hy & Hin)].
    + apply In_range in Hx. left. simpl in Hin.
      destruct Hin as [[= <- <-]|[[= <- <-]|[]]]; auto.
    + apply In_range in Hy. right. simpl in Hin.
      destruct Hin as [[= <- <-]|[[= <- <-]|[]]]; auto.
  - intros [[Hx Hy]|[Hy Hx]].
    + left. exists x. split; [by apply In_range|]. simpl.
      destruct Hy as [->| ->]; auto.
    + right. exists y. split; [by apply In_range|]. simpl.
      destruct Hx as [->| ->]; auto.
Qed.

Lemma border_seeds_on_border (w h x y : Z) :
  inside w h x y ->
  In (x, y) (border_seeds w h) <-> on_border w h (x, y).
Proof.
  intros [Hx Hy]. rewrite In_border_seeds. unfold on_border. simpl. tauto.
Qed.

(** The background fill is the marking loop with the classifier as the
    passability test. *)
Lemma fill_loop_mark (img : Image) (fuel : nat) (queue : list coord)
    (visited : list bool) :
  fill_loop img fuel queue visited =
  fst <$> mark_loop (is_bg img) (im_w img) (im_h img) fuel queue visited.
Proof.
  revert queue visited.
  induction fuel as [|fuel IH]; intros [|[x y] queue] visited; try done.
  cbn [fill_loop mark_loop].
  destruct (out_of_bounds (im_w img) (im_h img) x y); [apply IH|].
  fold (cell_index (im_w img) x y).
  destruct (visited !! cell_index (im_w img) x y) as [[|]|]; [apply IH| |done].
  unfold is_bg. destruct (getpixel img x y) as [[[r g] b] a].
  destruct (is_background_pixel r g b default_threshold); simpl; [|apply IH].
  rewrite IH.
  by destruct (mark_loop _ _ _ fuel _ _) as [[m cs]| |].
Qed.

Lemma reach_pass (pass : Z -> Z -> bool) (w h : Z) (seed : coord -> Prop)
    (x y : Z) :
  reach pass w h seed (x, y) -> inside w h x y /\ pass x y = true.
Proof. by inversion 1. Qed.

Lemma length_all_false (n : Z) : length (all_false n) = Z.to_nat n.
Proof. apply length_replicate. Qed.

Lemma lookup_all_false (n : Z) (i : nat) : all_false n !! i <> Some true.
Proof.
  unfold all_false. intros H%lookup_replicate. by destruct H.
Qed.

Lemma count_false_fuel (queue : list coord) (marks : list bool) :
  (4 * count_false marks + length queue <= fill_fuel queue marks)%nat.
Proof. unfold fill_fuel. pose proof (count_false_le marks). lia. Qed.

(** A set of marks that holds the passable seeds and is closed under
    passable neighbours holds everything reachable. *)
Lemma reach_marked (pass : Z -> Z -> bool) (w h : Z) (seed : coord -> Prop)
    (marks : list bool) :
  (forall x y, seed (x, y) -> inside w h x y -> pass x y = true ->
     marks !! cell_index w x y = Some true) ->
  (forall x y x' y', inside w h x y -> pass x y = true ->
     marks !! cell_index w x y = Some true ->
     In (x', y') (neighbours x y) -> inside w h x' y' -> pass x' y' = true ->
     marks !! cell_index w x' y' = Some true) ->
  forall c, reach pass w h seed c -> marks !! cell_index w c.1 c.2 = Some true.
Proof.
  intros Hseed Hclosed c.
  induction 1 as [x y Hs Hi Hp | x y x' y' HR IH Hn Hi Hp]; simpl in *.
  - by apply Hseed.
  - apply reach_pass in HR as [Hi0 Hp0]. by apply (Hclosed x y).
Qed.

Lemma background_mask_length (img : Image) :
  exists mask,
    background_mask img = Ok mask /\
    length mask = Z.to_nat (im_w img * im_h img).
Proof.
  unfold background_mask, flood_fill_background. rewrite fill_loop_mark.
  destruct (mark_loop_spec (is_bg img) (im_w img) (im_h img)
              (fill_fuel (border_seeds (im_w img) (im_h img))
                 (all_false (im_w img * im_h img)))
              (border_seeds (im_w img) (im_h img))
              (all_false (im_w img * im_h img)))
    as (mask & cells & -> & HM).
  { apply length_all_false. }
  { apply count_false_fuel. }
  exists mask. split; [done|].
  rewrite (mb_length _ _ _ _ _ _ _ HM). apply length_all_false.
Qed.

(** C5: the background mask is computed without error for every image, has
    one entry per pixel, and marks a pixel true if and only if the pixel is
    background-like and a 4-connected path of background-like pixels joins
    it to a background-like pixel of the border; in particular a border
    pixel that fails the classification is not marked. *)
Theorem background_mask_reachable (img : Image) :
  exists mask,
    background_mask img = Ok mask /\
    length mask = Z.to_nat (im_w img * im_h img) /\
    (forall x y, inside (im_w img) (im_h img) x y ->
       (mask !! cell_index (im_w img) x y = Some true <->
        bg_reachable img (x, y))) /\
    (forall x y, inside (im_w img) (im_h img) x y ->
       on_border (im_w img) (im_h img) (x, y) ->
       is_bg img x y = false ->
       mask !! cell_index (im_w img) x y = Some false).
Proof.
  set (w := im_w img). set (h := im_h img).
  unfold background_mask, flood_fill_background. fold w h.
  rewrite fill_loop_mark. fold w h.
  destruct (mark_loop_spec (is_bg img) w h
              (fill_fuel (border_seeds w h) (all_false (w * h)))
              (border_seeds w h) (all_false (w * h)))
    as (mask & cells & -> & [HL HM HN HC HQ HD]).
  { apply length_all_false. }
  { apply count_false_fuel. }
  rewrite length_all_false in HL.
  assert (Hiff : forall x y, inside w h x y ->
            (mask !! cell_index w x y = Some true <-> bg_reachable img (x, y))).
  { intros x y Hi. split.
    - intros [Hf|(x0 & y0 & Hin & E)]%HM; [by apply lookup_all_false in Hf|].
      destruct (HC x0 y0 Hin) as (Hi0 & _ & _ & HR).
      destruct (cell_index_inj w h x y x0 y0 Hi Hi0 E) as [-> ->].
      eapply reach_mono; [|exact HR].
      intros x1 y1 Hs Hi1 Hp1. apply reach_seed; auto.
      by apply border_seeds_on_border.
    - intros HR.
      apply (reach_marked (is_bg img) w h (on_border w h) mask) in HR; auto.
      + intros x1 y1 Hs Hi1 Hp1. apply HQ; auto.
        by apply border_seeds_on_border.
      + intros x1 y1 x' y' Hi1 Hp1 Hm Hn Hi' Hp'.
        apply HM in Hm as [Hf|(x0 & y0 & Hin & E)];
          [by apply lookup_all_false in Hf|].
        destruct (HC x0 y0 Hin) as (Hi0 & _).
        destruct (cell_index_inj w h x1 y1 x0 y0 Hi1 Hi0 E) as [-> ->].
        by apply (HD x0 y0). }
  exists mask. split; [done|]. split; [done|]. split; [done|].
  intros x y Hi Hb Hbg.
  pose proof (cell_index_lt _ _ _ _ Hi) as Hlt. rewrite <- HL in Hlt.
  destruct (lookup_lt_is_Some_2 _ _ Hlt) as [[|] Hm]; [|done].
  apply Hiff in Hm; [|done]. apply reach_pass in Hm as [_ Hp]. congruence.
Qed.

(** Scenario A: an all-white 10 by 10 sheet is background everywhere and
    yields no region. *)
Example scenario_all_background :
  let img := mkImage 10 10 (fun _ _ => (255, 255, 255, 255)) in
  background_mask img = Ok (replicate 100 true) /\
  sheet_regions img = Ok [].
Proof. vm_compute. by split. Qed.

(** ** The transparency pass *)

Lemma mark_loop_ext (p1 p2 : Z -> Z -> bool) (w h : Z) (fuel : nat)
    (queue : list coord) (marks : list bool) :
  (forall x y, p1 x y = p2 x y) ->
  mark_loop p1 w h fuel queue marks = mark_loop p2 w h fuel queue marks.
Proof.
  intros E. revert queue marks.
  induction fuel as [|fuel IH]; intros [|[x y] queue] marks; try done.
  cbn [mark_loop]. rewrite E, !IH. done.
Qed.

Lemma is_bg_clear_alpha (img : Image) (c : coord) (x y : Z) :
  is_bg (clear_alpha img c) x y = is_bg img x y.
Proof.
  destruct c as [cx cy]. unfold clear_alpha, is_bg, getpixel. simpl.
  destruct (im_px img cx cy) as [[[r g] b] a] eqn:E. simpl.
  destruct ((x =? cx) && (y =? cy)) eqn:Hc; [|done].
  apply andb_true_iff in Hc as [->%Z.eqb_eq ->%Z.eqb_eq]. by rewrite E.
Qed.

Lemma clear_alpha_size (img : Image) (c : coord) :
  im_w (clear_alpha img c) = im_w img /\ im_h (clear_alpha img c) = im_h img.
Proof.
  unfold clear_alpha. by destruct (getpixel img c.1 c.2) as [[[r g] b] a].
Qed.

Lemma foldl_clear_alpha_size (cells : list coord) (img : Image) :
  im_w (foldl clear_alpha img cells) = im_w img /\
  im_h (foldl clear_alpha img cells) = im_h img.
Proof.
  revert img. induction cells as [|c cells IH]; intros img; simpl; [done|].
  destruct (IH (clear_alpha img c)) as [-> ->]. apply clear_alpha_size.
Qed.

Lemma with_alpha_zero_idem (p : pixel) :
  with_alpha_zero (with_alpha_zero p) = with_alpha_zero p.
Proof. by destruct p as [[[r g] b] a]. Qed.

Lemma getpixel_clear_alpha (img : Image) (c : coord) (x y : Z) :
  getpixel (clear_alpha img c) x y =
  if decide (c = (x, y)) then with_alpha_zero (getpixel img x y)
  else getpixel img x y.
Proof.
  destruct c as [cx cy]. unfold clear_alpha, getpixel. simpl.
  destruct (im_px img cx cy) as [[[r g] b] a] eqn:E. simpl.
  case_decide as Hd.
  - injection Hd as -> ->. by rewrite !Z.eqb_refl, E.
  - destruct ((x =? cx) && (y =? cy)) eqn:Hc; [|done].
    apply andb_true_iff in Hc as [->%Z.eqb_eq ->%Z.eqb_eq]. done.
Qed.

Lemma getpixel_foldl_clear_alpha (cells : list coord) (img : Image) (x y : Z) :
  getpixel (foldl clear_alpha img cells) x y =
  if decide ((x, y) ∈ cells) then with_alpha_zero (getpixel img x y)
  else getpixel img x y.
Proof.
  revert img. induction cells as [|c cells IH]; intros img.
  { cbn [foldl].
    destruct (decide ((x, y) ∈ [])) as [H|]; [by apply not_elem_of_nil in H|done]. }
  cbn [foldl]. rewrite IH, getpixel_clear_alpha.
  destruct (decide (c = (x, y))) as [->|Hne].
  - rewrite with_alpha_zero_idem.
    rewrite (decide_True (P := (x, y) ∈ (x, y) :: cells)) by left.
    by destruct (decide ((x, y) ∈ cells)).
  - destruct (decide ((x, y) ∈ cells)) as [Hin|Hin].
    + by rewrite decide_True by by right.
    + rewrite decide_False; [done|]. by intros [?|?]%elem_of_cons.
Qed.

(** The transparency loop is the marking loop of the same image, and its
    image is the input with [clear_alpha] applied at the marked cells. *)
Lemma transparent_loop_mark (fuel : nat) (queue : list coord)
    (visited : list bool) (img : Image) :
  transparent_loop fuel queue visited img =
  (fun mc => (mc.1, foldl clear_alpha img mc.2)) <$>
    mark_loop (is_bg img) (im_w img) (im_h img) fuel queue visited.
Proof.
  revert queue visited img.
  induction fuel as [|fuel IH]; intros [|[x y] queue] visited img; try done.
  cbn [transparent_loop mark_loop].
  destruct (out_of_bounds (im_w img) (im_h img) x y); [apply IH|].
  fold (cell_index (im_w img) x y).
  destruct (visited !! cell_index (im_w img) x y) as [[|]|]; [apply IH| |done].
  unfold is_bg at 1.
  destruct (getpixel img x y) as [[[r g] b] a] eqn:E.
  destruct (is_background_pixel r g b default_threshold); simpl; [|apply IH].
  rewrite IH.
  change (putpixel img x y (r, g, b, 0)) with
    (let '(r, g, b, a) := (r, g, b, a) in putpixel img x y (r, g, b, 0)).
  rewrite <- E.
  change (let '(r0, g0, b0, _) := getpixel img x y in
          putpixel img x y (r0, g0, b0, 0)) with (clear_alpha img (x, y)).
  destruct (clear_alpha_size img (x, y)) as [-> ->].
  rewrite (mark_loop_ext (is_bg (clear_alpha img (x, y))) (is_bg img))
    by apply is_bg_clear_alpha.
  by destruct (mark_loop _ _ _ fuel _ _) as [[m cs]| |].
Qed.

(** C9: [make_background_transparent] returns for every sprite buffer; the
    mask it fills is the mask of the border-seeded background fill of that
    buffer; the size is unchanged; every pixel the mask marks keeps its R,
    G and B and gets alpha 0; every other pixel is left as it was. *)
Theorem transparency_changes_marked_alpha_only (sprite : Image) :
  exists mask out,
    background_mask sprite = Ok mask /\
    transparent_run sprite = Ok (mask, out) /\
    make_background_transparent sprite = Ok out /\
    im_w out = im_w sprite /\ im_h out = im_h sprite /\
    forall x y,
      (inside (im_w sprite) (im_h sprite) x y ->
       mask !! cell_index (im_w sprite) x y = Some true ->
       getpixel out x y = with_alpha_zero (getpixel sprite x y)) /\
      (~ (inside (im_w sprite) (im_h sprite) x y /\
          mask !! cell_index (im_w sprite) x y = Some true) ->
       getpixel out x y = getpixel sprite x y).
Proof.
  set (w := im_w sprite). set (h := im_h sprite).
  unfold make_background_transparent, background_mask, flood_fill_background,
    transparent_run.
  fold w h. rewrite fill_loop_mark, transparent_loop_mark. fold w h.
  destruct (mark_loop_spec (is_bg sprite) w h
              (fill_fuel (border_seeds w h) (all_false (w * h)))
              (border_seeds w h) (all_false (w * h)))
    as (mask & cells & -> & [HL HM HN HC HQ HD]).
  { apply length_all_false. }
  { apply count_false_fuel. }
  exists mask, (foldl clear_alpha sprite cells).
  do 3 (split; [done|]).
  destruct (foldl_clear_alpha_size cells sprite) as [-> ->].
  do 2 (split; [done|]).
  intros x y. rewrite getpixel_foldl_clear_alpha. split.
  - intros Hi [Hf|(x0 & y0 & Hin & E)]%HM; [by apply lookup_all_false in Hf|].
    destruct (HC x0 y0 Hin) as (Hi0 & _).
    destruct (cell_index_inj w h x y x0 y0 Hi Hi0 E) as [-> ->].
    by rewrite decide_True by by apply list_elem_of_In.
  - intros Hn. rewrite decide_False; [done|].
    intros Hin%list_elem_of_In. apply Hn.
    destruct (HC x y Hin) as (Hi & _). split; [done|].
    apply HM. right. by exists x, y.
Qed.

(** ** RegionExtractor *)

(** Forgetting the recorded cells gives the loop of the code. *)
Lemma region_loop_erasure (visited : list bool) (w h : Z) (fuel : nat)
    (queue : list coord) (st : bfs_state) (cells : list coord) :
  region_loop visited w h fuel queue st =
  fst <$> region_loop_trace visited w h fuel queue st cells.
Proof.
  revert queue st cells.
  induction fuel as [|fuel IH]; intros [|[cx cy] queue] st cells; try done.
  cbn [region_loop region_loop_trace].
  destruct (out_of_bounds w h cx cy); [apply IH|].
  destruct (visited !! Z.to_nat (cy * w + cx)) as [[|]|]; [apply IH| |done].
  destruct (region_visited st !! Z.to_nat (cy * w + cx)) as [[|]|];
    [apply IH| |done].
  apply IH.
Qed.

(** The component search is the marking loop over the foreground, and its
    variables are [bbox_step] folded over the cells it marks. *)
Lemma region_loop_trace_mark (visited : list bool) (w h : Z) (fuel : nat)
    (queue : list coord) (st : bfs_state) (cells : list coord) :
  length visited = Z.to_nat (w * h) ->
  length (region_visited st) = Z.to_nat (w * h) ->
  region_loop_trace visited w h fuel queue st cells =
  (fun mc => (foldl (bbox_step w) st mc.2, cells ++ mc.2)) <$>
    mark_loop (fg visited w) w h fuel queue (region_visited st).
Proof.
  intros HV. revert queue st cells.
  induction fuel as [|fuel IH]; intros [|[cx cy] queue] st cells HL;
    try done.
  { simpl. by rewrite app_nil_r. }
  { simpl. by rewrite app_nil_r. }
  cbn [region_loop_trace mark_loop].
  destruct (out_of_bounds w h cx cy) eqn:Hob; [by apply IH|].
  apply out_of_bounds_false in Hob.
  pose proof (cell_index_lt _ _ _ _ Hob) as Hlt.
  fold (cell_index w cx cy).
  destruct (lookup_lt_is_Some_2 visited (cell_index w cx cy)) as [bv Hbv];
    [by rewrite HV|].
  destruct (lookup_lt_is_Some_2 (region_visited st) (cell_index w cx cy))
    as [br Hbr]; [by rewrite HL|].
  assert (Hfg : fg visited w cx cy = negb bv)
    by (unfold fg; rewrite Hbv; by destruct bv).
  rewrite Hbv, Hbr, Hfg.
  destruct bv, br; simpl; try by apply IH.
  change (mkBfs _ _ _ _ _ _) with (bbox_step w st (cx, cy)).
  rewrite IH by (unfold bbox_step; simpl; by rewrite length_insert).
  simpl.
  destruct (mark_loop _ _ _ fuel _ _) as [[m cs]| |]; simpl; [|done|done].
  by rewrite <- app_assoc.
Qed.

Lemma mark_loop_marks (pass : Z -> Z -> bool) (w h : Z) (fuel : nat)
    (queue : list coord) (marks marks' : list bool) (cells : list coord) :
  mark_loop pass w h fuel queue marks = Ok (marks', cells) ->
  marks' = foldl (fun m c => <[cell_index w c.1 c.2 := true]> m) marks cells.
Proof.
  revert queue marks marks' cells.
  induction fuel as [|fuel IH]; intros [|[x y] queue] marks marks' cells;
    try done; try by intros [= <- <-].
  cbn [mark_loop].
  destruct (out_of_bounds w h x y); [apply IH|].
  destruct (marks !! cell_index w x y) as [[|]|]; [apply IH| |done].
  destruct (pass x y); simpl; [|apply IH].
  destruct (mark_loop _ _ _ fuel _ _) as [[m cs]| |] eqn:E; simpl; [|done|done].
  intros [= <- <-]. by apply IH in E.
Qed.

Lemma region_visited_foldl (w : Z) (cells : list coord) (st : bfs_state) :
  region_visited (foldl (bbox_step w) st cells) =
  foldl (fun m c => <[cell_index w c.1 c.2 := true]> m) (region_visited st) cells.
Proof.
  revert st. induction cells as [|c cells IH]; intros st; [done|].
  simpl. by rewrite IH.
Qed.

(** The box after folding [bbox_step] over [cells], from a box that is
    the single cell [(x, y)]. *)
Lemma bbox_foldl (w : Z) (cells seen : list coord) (st : bfs_state) :
  (forall x y, In (x, y) seen ->
     min_x st <= x <= max_x st /\ min_y st <= y <= max_y st) ->
  (exists y, In (min_x st, y) seen) -> (exists y, In (max_x st, y) seen) ->
  (exists x, In (x, min_y st) seen) -> (exists x, In (x, max_y st) seen) ->
  region_pixels st = Z.of_nat (length seen) ->
  is_bbox (foldl (bbox_step w) st cells) (seen ++ cells).
Proof.
  revert seen st. induction cells as [|[cx cy] cells IH];
    intros seen st HC HL HR HT HB HN.
  { rewrite app_nil_r. by split. }
  cbn [foldl].
  rewrite cons_middle, app_assoc.
  apply IH; simpl.
  - intros x y [Hin|[[= <- <-]|[]]]%in_app_iff; [|lia].
    apply HC in Hin. lia.
  - destruct (Z.min_spec (min_x st) cx) as [[_ ->]|[_ ->]].
    + destruct HL as [y ?]. exists y. apply in_app_iff. by left.
    + exists cy. apply in_app_iff. right. by left.
  - destruct (Z.max_spec (max_x st) cx) as [[_ ->]|[_ ->]].
    + exists cy. apply in_app_iff. right. by left.
    + destruct HR as [y ?]. exists y. apply in_app_iff. by left.
  - destruct (Z.min_spec (min_y st) cy) as [[_ ->]|[_ ->]].
    + destruct HT as [x ?]. exists x. apply in_app_iff. by left.
    + exists cx. apply in_app_iff. right. by left.
  - destruct (Z.max_spec (max_y st) cy) as [[_ ->]|[_ ->]].
    + exists cx. apply in_app_iff. right. by left.
    + destruct HB as [x ?]. exists x. apply in_app_iff. by left.
  - rewrite length_app. simpl. lia.
Qed.

Lemma neighbours_sym (x y x' y' : Z) :
  In (x', y') (neighbours x y) -> In (x, y) (neighbours x' y').
Proof.
  unfold neighbours. simpl.
  intros [[= <- <-]|[[= <- <-]|[[= <- <-]|[[= <- <-]|[]]]]].
  - right. left. f_equal. lia.
  - left. f_equal. lia.
  - do 3 right. left. f_equal. lia.
  - do 2 right. left. f_equal. lia.
Qed.

Lemma all_cells_snoc (comps : list component) (c : component) :
  all_cells (comps ++ [c]) = all_cells comps ++ comp_cells c.
Proof.
  unfold all_cells. rewrite map_app, concat_app. simpl. by rewrite app_nil_r.
Qed.

Section Scan.
Context (visited : list bool) (w h : Z).
Hypothesis visited_length : length visited = Z.to_nat (w * h).

Lemma fg_lookup (x y : Z) :
  fg visited w x y = true <-> visited !! cell_index w x y = Some false.
Proof.
  unfold fg. destruct (visited !! cell_index w x y) as [[|]|];
    split; congruence.
Qed.

(** Marks closed under foreground neighbours cannot be entered from a
    foreground cell they miss. *)
Lemma reach_unmarked (rv : list bool) (s : coord) :
  (forall x y x' y',
     inside w h x y -> rv !! cell_index w x y = Some true ->
     In (x', y') (neighbours x y) -> inside w h x' y' ->
     fg visited w x' y' = true ->
     rv !! cell_index w x' y' = Some true) ->
  rv !! cell_index w s.1 s.2 <> Some true ->
  forall c, reach (fg visited w) w h (fun s' => s' = s) c ->
            rv !! cell_index w c.1 c.2 <> Some true.
Proof.
  intros Hclosed Hs c.
  induction 1 as [x y -> Hi Hp | x y x' y' HR IH Hn Hi Hp]; [done|].
  simpl in *. intros Hm. apply IH.
  apply reach_pass in HR as [Hi0 Hp0].
  apply (Hclosed x' y' x y); auto. by apply neighbours_sym.
Qed.

Lemma mark_loop_head (pass : Z -> Z -> bool) (fuel : nat) (x y : Z)
    (queue : list coord) (marks : list bool) :
  inside w h x y -> marks !! cell_index w x y = Some false ->
  pass x y = true ->
  mark_loop pass w h (S fuel) ((x, y) :: queue) marks =
  (fun mc => (mc.1, (x, y) :: mc.2)) <$>
    mark_loop pass w h fuel (queue ++ neighbours x y)
      (<[cell_index w x y := true]> marks).
Proof.
  intros Hi%out_of_bounds_false Hm Hp. cbn [mark_loop].
  rewrite Hi, Hm, Hp. simpl.
  by destruct (mark_loop _ _ _ fuel _ _) as [[m cs]| |].
Qed.

(** One iteration of the scan keeps the invariant, only adds marks, and
    leaves its cell marked by the mask or by a component. *)
Lemma scan_cell_trace_spec (comps : list component) (rv : list bool)
    (x y : Z) :
  inside w h x y ->
  scan_inv visited w h comps rv ->
  exists comps' rv',
    scan_cell_trace visited w h (comps, rv) (x, y) = Ok (comps', rv') /\
    scan_inv visited w h comps' rv' /\
    (forall i, rv !! i = Some true -> rv' !! i = Some true) /\
    (visited !! cell_index w x y = Some true \/
     rv' !! cell_index w x y = Some true).
Proof.
  intros Hi HI. pose proof HI as [SL SM SN SC SF].
  pose proof (cell_index_lt _ _ _ _ Hi) as Hlt.
  unfold scan_cell_trace. fold (cell_index w x y).
  destruct (lookup_lt_is_Some_2 visited (cell_index w x y)) as [bv Hbv];
    [by rewrite visited_length|].
  destruct (lookup_lt_is_Some_2 rv (cell_index w x y)) as [br Hbr];
    [by rewrite SL|].
  rewrite Hbv, Hbr.
  destruct bv; [exists comps, rv; auto|].
  destruct br; [exists comps, rv; auto|].
  assert (Hfg : fg visited w x y = true) by by apply fg_lookup.
  rewrite region_loop_trace_mark by done. cbn [region_visited app].
  replace (fill_fuel [(x, y)] rv) with (S (4 * length rv)%nat)
    by (unfold fill_fuel; simpl; lia).
  destruct (mark_loop_spec (fg visited w) w h (S (4 * length rv)) [(x, y)] rv)
    as (m & cs & Hrun & HM); [done| |].
  { pose proof (count_false_le rv). simpl. lia. }
  pose proof Hrun as Hmarks%mark_loop_marks.
  rewrite Hrun. rewrite mark_loop_head in Hrun by done.
  destruct (mark_loop _ _ _ (4 * length rv) _ _) as [[m0 cs']| |] eqn:Hrun';
    try done.
  injection Hrun as <- <-. clear Hrun'.
  destruct HM as [ML MM MN MC MQ MD].
  set (st0 := mkBfs rv x y x y 0) in *.
  set (st := foldl (bbox_step w) st0 ((x, y) :: cs')).
  assert (Hrvst : region_visited st = m0).
  { unfold st. by rewrite region_visited_foldl, Hmarks. }
  assert (Hmono : forall i, rv !! i = Some true -> m0 !! i = Some true).
  { intros i Hrv. apply MM. by left. }
  assert (Hclosed : forall x1 y1 x' y',
            inside w h x1 y1 -> m0 !! cell_index w x1 y1 = Some true ->
            In (x', y') (neighbours x1 y1) -> inside w h x' y' ->
            fg visited w x' y' = true ->
            m0 !! cell_index w x' y' = Some true).
  { intros x1 y1 x' y' Hi1 Hm1 Hn Hi' Hp'.
    apply MM in Hm1 as [Hold|(x0 & y0 & Hin & E)].
    - apply Hmono. by apply (SC x1 y1).
    - destruct (MC x0 y0 Hin) as (Hi0 & _).
      destruct (cell_index_inj w h x1 y1 x0 y0 Hi1 Hi0 E) as [-> ->].
      by apply (MD x0 y0). }
  assert (Hcomp : connected_component visited w h ((x, y) :: cs')).
  { exists (x, y). split; [by left|]. intros [cx cy]. split.
    - intros Hin. destruct (MC cx cy Hin) as (_ & _ & _ & HR).
      eapply reach_mono; [|exact HR].
      intros x1 y1 [<-|[]] Hi1 Hp1. by apply reach_seed.
    - intros HR.
      pose proof (reach_pass _ _ _ _ _ _ HR) as [Hic _].
      pose proof (reach_unmarked rv (x, y) SC) as Hun.
      specialize (Hun ltac:(simpl; congruence) _ HR). simpl in Hun.
      apply (reach_marked (fg visited w) w h _ m0) in HR.
      + simpl in HR. apply MM in HR as [Hold|(x0 & y0 & Hin & E)]; [done|].
        destruct (MC x0 y0 Hin) as (Hi0 & _).
        by destruct (cell_index_inj w h cx cy x0 y0 Hic Hi0 E) as [-> ->].
      + intros x1 y1 [= -> ->] _ _. apply MQ; auto. by left.
      + intros x1 y1 x' y' Hi1 _ Hm1 Hn Hi' Hp'. by apply (Hclosed x1 y1). }
  assert (Hbox : is_bbox st ((x, y) :: cs')).
  { unfold st. cbn [foldl].
    change ((x, y) :: cs') with ([(x, y)] ++ cs').
    apply bbox_foldl; simpl.
    - intros x1 y1 [[= <- <-]|[]]. lia.
    - exists y. left. f_equal. lia.
    - exists y. left. f_equal. lia.
    - exists x. left. f_equal. lia.
    - exists x. left. f_equal. lia.
    - done. }
  exists (comps ++ [mkComponent ((x, y) :: cs') st]), m0.
  split; [by rewrite <- Hrvst|].
  split; [|split; [done|]].
  - split.
    + by rewrite ML.
    + intros i. rewrite all_cells_snoc. cbn [comp_cells]. rewrite MM, SM.
      split.
      * intros [(x0 & y0 & Hin & E)|(x0 & y0 & Hin & E)];
          exists x0, y0; (split; [apply in_app_iff; auto|done]).
      * intros (x0 & y0 & [Hin|Hin]%in_app_iff & E);
          [left|right]; by exists x0, y0.
    + rewrite all_cells_snoc. cbn [comp_cells].
      apply NoDup_app. split; [done|]. split; [|done].
      intros [x0 y0] Hold%list_elem_of_In Hnew%list_elem_of_In.
      destruct (MC x0 y0 Hnew) as (_ & _ & Hf & _).
      assert (rv !! cell_index w x0 y0 = Some true) as Ht
        by (apply SM; by exists x0, y0).
      congruence.
    + done.
    + apply Forall_app. split; [done|].
      apply Forall_cons. split; [by split|]. apply Forall_nil_2.
  - right. apply MQ; auto. by left.
Qed.
End Scan.

Lemma In_row_major (w h x y : Z) :
  In (x, y) (row_major w h) <-> inside w h x y.
Proof.
  unfold row_major, inside. rewrite in_flat_map. split.
  - intros (y0 & Hy%In_range & (x0 & [= <- <-] & Hx%In_range)%in_map_iff).
    done.
  - intros [Hx Hy]. exists y. split; [by apply In_range|].
    apply in_map_iff. exists x. split; [done|by apply In_range].
Qed.

Lemma scan_inv_init (visited : list bool) (w h : Z) :
  scan_inv visited w h [] (all_false (w * h)).
Proof.
  split.
  - apply length_all_false.
  - intros i. split; [by intros ?%lookup_all_false|by intros (? & ? & [] & _)].
  - constructor.
  - intros x y x' y' _ Hm. by apply lookup_all_false in Hm.
  - constructor.
Qed.

Lemma scan_trace_spec (visited : list bool) (w h : Z) (l : list coord)
    (comps : list component) (rv : list bool) :
  length visited = Z.to_nat (w * h) ->
  (forall x y, In (x, y) l -> inside w h x y) ->
  scan_inv visited w h comps rv ->
  exists comps' rv',
    for_each (scan_cell_trace visited w h) l (comps, rv) = Ok (comps', rv') /\
    scan_inv visited w h comps' rv' /\
    (forall i, rv !! i = Some true -> rv' !! i = Some true) /\
    (forall x y, In (x, y) l ->
       visited !! cell_index w x y = Some true \/
       rv' !! cell_index w x y = Some true).
Proof.
  intros HV. revert comps rv.
  induction l as [|[x y] l IH]; intros comps rv Hl HI.
  { exists comps, rv. split; [done|]. split; [done|]. split; [done|].
    intros ? ? []. }
  destruct (scan_cell_trace_spec visited w h HV comps rv x y)
    as (comps1 & rv1 & Hstep & HI1 & Hmono1 & Hcell); auto.
  { apply Hl. by left. }
  destruct (IH comps1 rv1) as (comps2 & rv2 & Hrest & HI2 & Hmono2 & Hcells);
    auto.
  { intros x0 y0 Hin. apply Hl. by right. }
  exists comps2, rv2. cbn [for_each]. rewrite Hstep. simpl.
  split; [exact Hrest|]. split; [done|]. split; [by auto|].
  intros x0 y0 [[= <- <-]|Hin]; [|by apply Hcells].
  destruct Hcell as [?|?]; auto.
Qed.

(** The scan returns for every mask of the right size; its components are
    disjoint connected components of the foreground with their boxes and
    counts, and together they are the foreground. *)
Lemma extract_components_spec (visited : list bool) (w h : Z) :
  length visited = Z.to_nat (w * h) ->
  exists comps,
    extract_components visited w h = Ok comps /\
    NoDup (all_cells comps) /\
    (forall x y, In (x, y) (all_cells comps) ->
       inside w h x y /\ visited !! cell_index w x y = Some false) /\
    (forall x y, inside w h x y ->
       visited !! cell_index w x y = Some true \/
       In (x, y) (all_cells comps)) /\
    Forall (fun c => connected_component visited w h (comp_cells c) /\
                     is_bbox (comp_state c) (comp_cells c)) comps.
Proof.
  intros HV.
  destruct (scan_trace_spec visited w h (row_major w h) [] (all_false (w * h)))
    as (comps & rv & Hrun & [SL SM SN SC SF] & _ & Hcover); auto.
  { intros x y. apply In_row_major. }
  { apply scan_inv_init. }
  exists comps. unfold extract_components. rewrite Hrun. simpl.
  split; [done|]. split; [done|]. split; [|split; [|done]].
  - intros x y (cells & (c & <- & Hc)%in_map_iff & Hin)%in_concat.
    rewrite Forall_forall in SF. apply list_elem_of_In in Hc.
    destruct (SF c Hc) as [(s & _ & Hreach) _].
    apply Hreach, reach_pass in Hin as [Hi Hp].
    split; [done|]. by apply fg_lookup.
  - intros x y Hi.
    destruct (Hcover x y) as [?|Hm]; [by apply In_row_major|by left|].
    right. apply SM in Hm as (x0 & y0 & Hin & E).
    assert (Hi0 : inside w h x0 y0).
    { apply in_concat in Hin as (cells & (c & <- & Hc)%in_map_iff & Hin).
      rewrite Forall_forall in SF. apply list_elem_of_In in Hc.
      destruct (SF c Hc) as [(s & _ & Hreach) _].
      by apply Hreach, reach_pass in Hin as [? _]. }
    by destruct (cell_index_inj w h x y x0 y0 Hi Hi0 E) as [-> ->].
Qed.

Lemma kept_regions_snoc (min_size : Z) (comps : list component)
    (c : component) :
  kept_regions min_size (comps ++ [c]) =
  if size_ok min_size (comp_state c)
  then kept_regions min_size comps ++ [region_of (comp_state c)]
  else kept_regions min_size comps.
Proof.
  unfold kept_regions. rewrite filter_app, map_app.
  destruct (size_ok min_size (comp_state c)) eqn:E.
  - by rewrite filter_cons_True by done.
  - rewrite filter_cons_False by congruence. simpl. by rewrite app_nil_r.
Qed.

Lemma scan_cell_erasure (visited : list bool) (w h min_size : Z)
    (comps : list component) (rv : list bool) (c : coord) :
  scan_cell visited w h min_size (kept_regions min_size comps, rv) c =
  (fun a => (kept_regions min_size a.1, a.2)) <$>
    scan_cell_trace visited w h (comps, rv) c.
Proof.
  destruct c as [x y]. unfold scan_cell, scan_cell_trace.
  destruct (visited !! Z.to_nat (y * w + x)) as [[|]|]; try done.
  destruct (rv !! Z.to_nat (y * w + x)) as [[|]|]; try done.
  rewrite (region_loop_erasure _ _ _ _ _ _ []).
  destruct (region_loop_trace _ _ _ _ _ _ _) as [[st cells]| |]; try done.
  simpl. by rewrite kept_regions_snoc.
Qed.

Lemma scan_erasure (visited : list bool) (w h min_size : Z) (l : list coord)
    (comps : list component) (rv : list bool) :
  for_each (scan_cell visited w h min_size) l (kept_regions min_size comps, rv) =
  (fun a => (kept_regions min_size a.1, a.2)) <$>
    for_each (scan_cell_trace visited w h) l (comps, rv).
Proof.
  revert comps rv. induction l as [|c l IH]; intros comps rv; [done|].
  cbn [for_each]. rewrite scan_cell_erasure.
  destruct (scan_cell_trace visited w h (comps, rv) c) as [[comps1 rv1]| |];
    try done.
  simpl. apply IH.
Qed.

(** [find_sprite_regions] is the scan with the cells forgotten, followed by
    the size test. *)
Lemma find_sprite_regions_erasure (visited : list bool) (w h min_size : Z) :
  find_sprite_regions visited w h min_size =
  kept_regions min_size <$> extract_components visited w h.
Proof.
  unfold find_sprite_regions, extract_components.
  rewrite (scan_erasure _ _ _ _ _ []).
  by destruct (for_each _ _ _) as [[comps rv]| |].
Qed.

Lemma NoDup_concat_unique {A} (ls : list (list A)) (k k' : nat)
    (l l' : list A) (a : A) :
  NoDup (concat ls) ->
  ls !! k = Some l -> ls !! k' = Some l' -> In a l -> In a l' -> k = k'.
Proof.
  revert k k'. induction ls as [|l0 ls IH]; intros k k' HN Hk Hk' Ha Ha';
    [done|].
  simpl in HN. apply NoDup_app in HN as (_ & Hdisj & HN).
  assert (Hlater : forall j lj, ls !! j = Some lj -> In a lj ->
            a ∈ concat ls).
  { intros j lj Hj Hin. apply list_elem_of_In, in_concat. exists lj.
    split; [|done]. apply list_elem_of_In. by eapply list_elem_of_lookup_2. }
  destruct k as [|k], k' as [|k']; simpl in *; [done| | |].
  - injection Hk as ->. exfalso.
    apply (Hdisj a); [by apply list_elem_of_In|by eapply Hlater].
  - injection Hk' as ->. exfalso.
    apply (Hdisj a); [by apply list_elem_of_In|by eapply Hlater].
  - f_equal. by apply IH.
Qed.

Lemma size_ok_iff (min_size : Z) (c : component) :
  size_ok min_size (comp_state c) = true <->
  min_size <= comp_width c /\ min_size <= comp_height c.
Proof.
  unfold size_ok, comp_width, comp_height.
  rewrite andb_true_iff, !Z.geb_le. done.
Qed.

Lemma In_all_cells (comps : list component) (p : coord) :
  In p (all_cells comps) <-> exists c, In c comps /\ In p (comp_cells c).
Proof.
  unfold all_cells. rewrite in_concat. split.
  - intros (cells & (c & <- & Hc)%in_map_iff & Hin). by exists c.
  - intros (c & Hc & Hin). exists (comp_cells c). split; [|done].
    apply in_map_iff. by exists c.
Qed.

Lemma components_disjoint (comps : list component) (k k' : nat)
    (c c' : component) (p : coord) :
  NoDup (all_cells comps) ->
  comps !! k = Some c -> comps !! k' = Some c' ->
  In p (comp_cells c) -> In p (comp_cells c') -> k = k'.
Proof.
  intros HN Hk Hk'.
  apply (NoDup_concat_unique (map comp_cells comps)); auto.
  - by rewrite list_lookup_fmap, Hk.
  - by rewrite list_lookup_fmap, Hk'.
Qed.

(** C2: for every pixel buffer the mask and the component scan return, and
    the pixels partition: a pixel the mask marks lies in no component, and a
    pixel the mask does not mark lies in exactly one component (and once in
    it).  The components are the connected components of the unmarked
    pixels, and [find_sprite_regions] is this scan followed by the size
    test. *)
Theorem components_partition_pixels (img : Image) :
  exists mask comps,
    background_mask img = Ok mask /\
    extract_components mask (im_w img) (im_h img) = Ok comps /\
    (forall min_size,
       find_sprite_regions mask (im_w img) (im_h img) min_size =
       Ok (kept_regions min_size comps)) /\
    NoDup (all_cells comps) /\
    Forall (fun c => connected_component mask (im_w img) (im_h img)
                       (comp_cells c)) comps /\
    forall x y, inside (im_w img) (im_h img) x y ->
      (mask !! cell_index (im_w img) x y = Some true /\
       forall c, In c comps -> ~ In (x, y) (comp_cells c)) \/
      (mask !! cell_index (im_w img) x y = Some false /\
       exists k c, comps !! k = Some c /\ In (x, y) (comp_cells c) /\
         forall k' c', comps !! k' = Some c' -> In (x, y) (comp_cells c') ->
                       k' = k).
Proof.
  destruct (background_mask_length img) as (mask & Hmask & HL).
  destruct (extract_components_spec mask (im_w img) (im_h img) HL)
    as (comps & Hrun & HN & Hcells & Hcover & HF).
  exists mask, comps. split; [done|]. split; [done|].
  split; [|split; [done|split]].
  - intros min_size. by rewrite find_sprite_regions_erasure, Hrun.
  - eapply Forall_impl; [exact HF|]. by intros c [? _].
  - intros x y Hi. destruct (Hcover x y Hi) as [Hm|Hin].
    + left. split; [done|]. intros c Hc Hin.
      destruct (Hcells x y) as [_ Hf]; [|congruence].
      apply In_all_cells. by exists c.
    + right. destruct (Hcells x y Hin) as [_ Hf]. split; [done|].
      apply In_all_cells in Hin as (c & Hc & Hin).
      apply list_elem_of_In, list_elem_of_lookup in Hc as [k Hk].
      exists k, c. split; [done|]. split; [done|].
      intros k' c' Hk' Hin'.
      by apply (components_disjoint comps k' k c' c (x, y)).
Qed.

(** C7: [find_sprite_regions] returns, in scan order, the box and count of
    exactly those collected components whose bounding box is at least
    [min_size] wide and at least [min_size] high; the box and the count are
    those of the component's cells.  With the pipeline's [min_size] of 30 a
    component whose box is 20 by 20 is not kept.  The cells of a component,
    kept or not, belong to no other component. *)
Theorem size_filter_keeps_large_components (img : Image) (min_size : Z) :
  exists mask comps,
    background_mask img = Ok mask /\
    extract_components mask (im_w img) (im_h img) = Ok comps /\
    find_sprite_regions mask (im_w img) (im_h img) min_size =
      Ok (map (fun c => region_of (comp_state c))
            (filter (fun c => size_ok min_size (comp_state c) = true) comps)) /\
    (forall c, In c comps ->
       connected_component mask (im_w img) (im_h img) (comp_cells c) /\
       is_bbox (comp_state c) (comp_cells c) /\
       (size_ok min_size (comp_state c) = true <->
        min_size <= comp_width c /\ min_size <= comp_height c) /\
       (comp_width c = 20 -> comp_height c = 20 ->
        size_ok 30 (comp_state c) = false)) /\
    (forall k k' c c' p,
       comps !! k = Some c -> comps !! k' = Some c' -> k <> k' ->
       In p (comp_cells c) -> ~ In p (comp_cells c')).
Proof.
  destruct (background_mask_length img) as (mask & Hmask & HL).
  destruct (extract_components_spec mask (im_w img) (im_h img) HL)
    as (comps & Hrun & HN & Hcells & Hcover & HF).
  exists mask, comps. split; [done|]. split; [done|].
  split; [|split].
  - by rewrite find_sprite_regions_erasure, Hrun.
  - intros c Hc. rewrite Forall_forall in HF.
    destruct (HF c) as [Hcc Hbb]; [by apply list_elem_of_In|].
    split; [done|]. split; [done|]. split; [apply size_ok_iff|].
    intros Hw Hh. apply not_true_iff_false. rewrite size_ok_iff. lia.
  - intros k k' c c' p Hk Hk' Hne Hin Hin'. apply Hne.
    by apply (components_disjoint comps k k' c c' p).
Qed.

(** Scenario D: on a 24 by 24 sheet a 20 by 20 block of blue is collected as
    one component of 400 pixels and dropped by the size test. *)
Example scenario_small_component :
  let img := mkImage 24 24 (fun x y =>
    if (2 <=? x) && (x <? 22) && (2 <=? y) && (y <? 22)
    then (0, 0, 255, 255) else (255, 255, 255, 255)) in
  (mask ← background_mask img;
   comps ← extract_components mask 24 24;
   regions ← find_sprite_regions mask 24 24 30;
   Ok (map (fun c => (comp_width c, comp_height c, length (comp_cells c)))
         comps, regions)) =
  Ok ([(20, 20, 400%nat)], []).
Proof. vm_compute. reflexivity. Qed.

(** ** RegionMerger *)

Section MergeRecFacts.
Context {T : Type} (close : T -> T -> bool) (join : T -> T -> T).

Lemma absorb_later_length (cur : T) (rest : list T) :
  let '(_, kept, m) := absorb_later close join cur rest in
  (length kept <= length rest)%nat /\
  (m = true -> (length kept < length rest)%nat).
Proof.
  revert cur. induction rest as [|r rest IH]; intros cur; simpl.
  - split; [lia | discriminate].
  - destruct (close cur r).
    + specialize (IH (join cur r)).
      destruct (absorb_later close join (join cur r) rest) as [[c k] m].
      simpl. lia.
    + specialize (IH cur).
      destruct (absorb_later close join cur rest) as [[c k] m].
      simpl. split; [lia | intros Hm; apply IH in Hm; lia].
Qed.

Lemma absorb_later_idle (cur : T) (rest : list T) (cur' : T)
    (kept : list T) :
  absorb_later close join cur rest = (cur', kept, false) ->
  cur' = cur /\ kept = rest /\ Forall (fun r => close cur r = false) rest.
Proof.
  revert kept. induction rest as [|r rest IH]; intros kept; simpl.
  - intros [= <- <-]. auto.
  - destruct (close cur r) eqn:Hc.
    + destruct (absorb_later close join (join cur r) rest) as [[c k] m].
      discriminate.
    + destruct (absorb_later close join cur rest) as [[c k] m].
      intros [= <- <- ->].
      destruct (IH k eq_refl) as (-> & -> & HF). auto.
Qed.

Lemma absorb_later_none (cur : T) (rest : list T) :
  Forall (fun r => close cur r = false) rest ->
  absorb_later close join cur rest = (cur, rest, false).
Proof.
  induction 1 as [|r rest Hr _ IH]; simpl; [done|].
  by rewrite Hr, IH.
Qed.

Lemma pass_rec_length (fuel : nat) (l : list T) :
  (length l <= fuel)%nat ->
  let '(out, m) := pass_rec close join fuel l in
  (length out <= length l)%nat /\
  (m = true -> (length out < length l)%nat) /\
  (l <> [] -> out <> []).
Proof.
  revert l. induction fuel as [|fuel IH]; intros l Hl.
  - destruct l; simpl in *; [|lia]. repeat split; auto; discriminate.
  - destruct l as [|r rest]; simpl.
    { repeat split; auto; discriminate. }
    pose proof (absorb_later_length r rest) as HA.
    destruct (absorb_later close join r rest) as [[cur kept] m].
    simpl in Hl. specialize (IH kept ltac:(lia)).
    destruct (pass_rec close join fuel kept) as [out m'].
    simpl. split; [lia|]. split; [|discriminate].
    intros [->| ->]%orb_true_iff; [lia|].
    destruct IH as (_ & IH & _). specialize (IH eq_refl). lia.
Qed.

Lemma pass_rec_idle (fuel : nat) (l out : list T) :
  (length l <= fuel)%nat ->
  pass_rec close join fuel l = (out, false) ->
  out = l /\ ForallOrdPairs (fun a b => close a b = false) l.
Proof.
  revert l out. induction fuel as [|fuel IH]; intros l out Hl.
  - destruct l; simpl in *; [|lia]. intros [= <-]. split; [done|constructor].
  - destruct l as [|r rest]; simpl.
    { intros [= <-]. split; [done|constructor]. }
    destruct (absorb_later close join r rest) as [[cur kept] m] eqn:HA.
    destruct (pass_rec close join fuel kept) as [out' m'] eqn:HP.
    intros [= <- [-> ->]%orb_false_iff].
    apply absorb_later_idle in HA as (-> & -> & HF).
    simpl in Hl. apply IH in HP as [-> HO]; [|lia].
    split; [done|]. by constructor.
Qed.

Lemma pass_rec_none (fuel : nat) (l : list T) :
  (length l <= fuel)%nat ->
  ForallOrdPairs (fun a b => close a b = false) l ->
  pass_rec close join fuel l = (l, false).
Proof.
  intros Hl HO. revert fuel Hl.
  induction HO as [|r rest HF _ IH]; intros fuel Hl.
  - by destruct fuel.
  - destruct fuel as [|fuel]; simpl in *; [lia|].
    rewrite (absorb_later_none _ _ HF), IH by lia. done.
Qed.

(** The [while] ends within its fuel, on a list that a further pass
    leaves alone, and keeps every property that one pass keeps. *)
Lemma loop_rec_inv (P : list T -> Prop) (fuel : nat) (l : list T) :
  (forall l out m, P l -> pass_rec close join (length l) l = (out, m) -> P out) ->
  P l ->
  (length l < fuel)%nat ->
  exists out,
    loop_rec close join fuel l = Ok out /\ P out /\
    (length out <= length l)%nat /\
    ForallOrdPairs (fun a b => close a b = false) out.
Proof.
  intros Hstep. revert l. induction fuel as [|fuel IH]; intros l HP Hl; [lia|].
  simpl.
  pose proof (pass_rec_length (length l) l (le_n _)) as HL.
  destruct (pass_rec close join (length l) l) as [out m] eqn:Hpass.
  destruct HL as (Hle & Hlt & _).
  pose proof (Hstep _ _ _ HP Hpass) as HPo.
  destruct m.
  - specialize (Hlt eq_refl).
    destruct (IH out HPo ltac:(lia)) as (out' & -> & ? & ? & ?).
    exists out'. repeat split; auto. lia.
  - exists out. apply pass_rec_idle in Hpass as [-> HO]; [|lia].
    repeat split; auto.
Qed.
End MergeRecFacts.

Lemma live_ext (u1 u2 : gset nat) (k : nat) (l : list region) :
  (forall n, (k <= n)%nat -> n ∈ u1 <-> n ∈ u2) ->
  live u1 k l = live u2 k l.
Proof.
  revert k. induction l as [|r l IH]; intros k H; simpl; [done|].
  rewrite (IH (S k)) by (intros; apply H; lia).
  destruct (decide (k ∈ u1)) as [H1|H1], (decide (k ∈ u2)) as [H2|H2];
    try done; exfalso; apply (H k) in H1 || apply (H k) in H2; auto.
Qed.

Lemma live_length (u : gset nat) (k : nat) (l : list region) :
  (length (live u k l) <= length l)%nat.
Proof.
  revert k. induction l as [|r l IH]; intros k; simpl; [lia|].
  specialize (IH (S k)). destruct (decide (k ∈ u)); simpl; lia.
Qed.

Lemma live_empty (k : nat) (l : list region) : live ∅ k l = l.
Proof.
  revert k. induction l as [|r l IH]; intros k; simpl; [done|].
  rewrite IH. destruct (decide (k ∈ (∅ : gset nat))); [set_solver|done].
Qed.

Lemma drop_cons_inv {A} (k : nat) (l : list A) (r : A) (l' : list A) :
  drop k l = r :: l' ->
  l !! k = Some r /\ drop (S k) l = l' /\ (length l - S k)%nat = length l'.
Proof.
  intros H. split; [|split].
  - rewrite <- (Nat.add_0_r k), <- lookup_drop, H. done.
  - replace (S k) with (k + 1)%nat by lia. by rewrite <- drop_drop, H.
  - pose proof (f_equal length H) as HL. rewrite length_drop in HL.
    simpl in HL. lia.
Qed.

Lemma merge_inner_live (gap : Z) (regions l : list region) (k : nat)
    (cur : region) (used : gset nat) (merged : bool) :
  drop k regions = l ->
  exists used',
    foldl (merge_inner gap regions) (cur, used, merged) (seq k (length l)) =
      (let '(cur', _, m) :=
         absorb_later (close_enough gap) absorb cur (live used k l) in
       (cur', used', merged || m)) /\
    live used' k l =
      (absorb_later (close_enough gap) absorb cur (live used k l)).1.2 /\
    (forall n, (n < k)%nat -> n ∈ used' <-> n ∈ used) /\
    used ⊆ used'.
Proof.
  revert k cur used merged.
  induction l as [|r l IH]; intros k cur used merged Hd.
  - exists used. simpl. rewrite orb_false_r. auto.
  - apply drop_cons_inv in Hd as (Hk & Hd & _).
    cbn [length seq foldl live]. unfold merge_inner at 2.
    destruct (decide (k ∈ used)) as [Hu|Hu].
    + destruct (IH (S k) cur used merged Hd) as (used' & Hf & Hl & Hn & Hs).
      exists used'. split; [exact Hf|]. split; [|split; [|done]].
      * cbn [live]. rewrite decide_True by (by apply Hs). done.
      * intros n Hlt. apply Hn. lia.
    + rewrite Hk. cbn [absorb_later].
      destruct (close_enough gap cur r) eqn:Hc.
      * destruct (IH (S k) (absorb cur r) (used ∪ {[k]}) true Hd)
          as (used' & Hf & Hl & Hn & Hs).
        rewrite (live_ext (used ∪ {[k]}) used) in Hf, Hl
          by (intros n ?; set_unfold; split; [intros [|]|]; auto; lia).
        exists used'. rewrite Hf.
        destruct (absorb_later (close_enough gap) absorb (absorb cur r)
                    (live used (S k) l)) as [[c kp] m].
        split; [by rewrite orb_true_r|]. split; [|split].
        -- cbn [live]. rewrite decide_True; [done|].
           apply Hs, elem_of_union_r, elem_of_singleton. done.
        -- intros n Hlt. etrans; [apply Hn; lia|]. set_unfold.
           split; [intros [|]|]; auto; lia.
        -- intros n Hn'. apply Hs, elem_of_union_l, Hn'.
      * destruct (IH (S k) cur used merged Hd) as (used' & Hf & Hl & Hn & Hs).
        exists used'. rewrite Hf.
        destruct (absorb_later (close_enough gap) absorb cur
                    (live used (S k) l)) as [[c kp] m].
        split; [done|]. split; [|split; [|done]].
        -- cbn [live]. rewrite decide_False; [by rewrite Hl|].
           intros Hk'. apply Hn in Hk'; [done|lia].
        -- intros n Hlt. apply Hn. lia.
Qed.

Lemma merge_outer_live (gap : Z) (regions l : list region) (k : nat)
    (new_regions : list region) (used : gset nat) (merged : bool) (fuel : nat) :
  drop k regions = l ->
  (length (live used k l) <= fuel)%nat ->
  exists used',
    foldl (merge_outer gap regions) (new_regions, used, merged)
          (seq k (length l)) =
      (let '(out, m) :=
         pass_rec (close_enough gap) absorb fuel (live used k l) in
       (new_regions ++ out, used', merged || m)).
Proof.
  revert k new_regions used merged fuel.
  induction l as [|r l IH]; intros k new_regions used merged fuel Hd Hfuel.
  - exists used. destruct fuel; simpl; by rewrite app_nil_r, orb_false_r.
  - apply drop_cons_inv in Hd as (Hk & Hd & Hlen).
    cbn [length seq foldl]. cbn [live] in *. unfold merge_outer at 2.
    destruct (decide (k ∈ used)) as [Hu|Hu].
    + apply IH; auto.
    + rewrite Hk, Hlen.
      destruct (merge_inner_live gap regions l (S k) r used merged Hd)
        as (used1 & Hf & Hl & Hn & Hs).
      rewrite Hf.
      destruct fuel as [|fuel]; [simpl in Hfuel; lia|].
      cbn [pass_rec].
      pose proof (absorb_later_length (close_enough gap) absorb r
                    (live used (S k) l)) as HAL.
      destruct (absorb_later (close_enough gap) absorb r (live used (S k) l))
        as [[cur kept] m1].
      simpl in Hl, Hfuel.
      destruct (IH (S k) (new_regions ++ [cur]) (used1 ∪ {[k]})
                  (merged || m1) fuel Hd) as (used' & Hf').
      { rewrite (live_ext _ used1), Hl
          by (intros n ?; set_unfold; split; [intros [|]|]; auto; lia).
        lia. }
      rewrite (live_ext _ used1), Hl in Hf'
        by (intros n ?; set_unfold; split; [intros [|]|]; auto; lia).
      exists used'. rewrite Hf'.
      destruct (pass_rec (close_enough gap) absorb fuel kept) as [out m'].
      by rewrite <- app_assoc, orb_assoc.
Qed.

(** The pass of the code is the pass by recursion on the list. *)
Lemma merge_pass_rec (gap : Z) (regions : list region) :
  merge_pass gap regions =
  pass_rec (close_enough gap) absorb (length regions) regions.
Proof.
  unfold merge_pass.
  destruct (merge_outer_live gap regions regions 0 [] ∅ false
              (length regions) eq_refl) as (used' & Hf).
  { rewrite live_empty. lia. }
  rewrite Hf, live_empty.
  by destruct (pass_rec (close_enough gap) absorb (length regions) regions).
Qed.

Lemma merge_loop_rec (gap : Z) (fuel : nat) (regions : list region) :
  merge_loop gap fuel regions =
  loop_rec (close_enough gap) absorb fuel regions.
Proof.
  revert regions. induction fuel as [|fuel IH]; intros regions; simpl; [done|].
  rewrite merge_pass_rec.
  destruct (pass_rec (close_enough gap) absorb (length regions) regions)
    as [out m].
  destruct m; auto.
Qed.

Section MergeRecMap.
Context {T U : Type} (close : T -> T -> bool) (join : T -> T -> T)
        (close' : U -> U -> bool) (join' : U -> U -> U) (f : T -> U).
Hypothesis close_f : forall a b, close' (f a) (f b) = close a b.
Hypothesis join_f : forall a b, f (join a b) = join' (f a) (f b).

Lemma absorb_later_map (cur : T) (rest : list T) :
  absorb_later close' join' (f cur) (map f rest) =
  (let '(c, k, m) := absorb_later close join cur rest in (f c, map f k, m)).
Proof.
  revert cur. induction rest as [|r rest IH]; intros cur; simpl; [done|].
  rewrite close_f. destruct (close cur r).
  - rewrite <- join_f, IH.
    by destruct (absorb_later close join (join cur r) rest) as [[c k] m].
  - rewrite IH. by destruct (absorb_later close join cur rest) as [[c k] m].
Qed.

Lemma pass_rec_map (fuel : nat) (l : list T) :
  pass_rec close' join' fuel (map f l) =
  (let '(out, m) := pass_rec close join fuel l in (map f out, m)).
Proof.
  revert l. induction fuel as [|fuel IH]; intros l; simpl; [done|].
  destruct l as [|r rest]; simpl; [done|].
  rewrite absorb_later_map.
  destruct (absorb_later close join r rest) as [[c k] m].
  rewrite IH. by destruct (pass_rec close join fuel k) as [out m'].
Qed.

Lemma loop_rec_map (fuel : nat) (l : list T) :
  loop_rec close' join' fuel (map f l) =
  match loop_rec close join fuel l with
  | Ok out => Ok (map f out)
  | IndexError => IndexError
  | OutOfFuel => OutOfFuel
  end.
Proof.
  revert l. induction fuel as [|fuel IH]; intros l; simpl; [done|].
  rewrite length_map, pass_rec_map.
  destruct (pass_rec close join (length l) l) as [out m].
  destruct m; [apply IH|done].
Qed.
End MergeRecMap.

Lemma close_enough_sym (gap : Z) (a b : region) :
  close_enough gap a b = close_enough gap b a.
Proof.
  destruct a as [[[[x1 y1] x2] y2] p1], b as [[[[bx1 by1] bx2] by2] p2].
  unfold close_enough. apply eq_true_iff_eq.
  rewrite !andb_true_iff, !Z.leb_le, !Z.geb_le. lia.
Qed.

Lemma absorb_assoc (a b c : region) :
  absorb (absorb a b) c = absorb a (absorb b c).
Proof.
  destruct a as [[[[x1 y1] x2] y2] p1], b as [[[[bx1 by1] bx2] by2] p2],
           c as [[[[cx1 cy1] cx2] cy2] p3].
  unfold absorb. by rewrite !Z.min_assoc, !Z.max_assoc, Z.add_assoc.
Qed.

Lemma foldl_absorb_cons (a b : region) (l : list region) :
  foldl absorb a (b :: l) = absorb a (foldl absorb b l).
Proof.
  revert a b. induction l as [|c l IH]; intros a b; [done|].
  change (foldl absorb a (b :: c :: l)) with (foldl absorb (absorb a b) (c :: l)).
  by rewrite IH, absorb_assoc, <- IH.
Qed.

Lemma is_union_tag (r : region) : is_union r [r].
Proof. by exists r, []. Qed.

Lemma is_union_join (a b : tagged) :
  is_union a.1 a.2 -> is_union b.1 b.2 ->
  is_union (join_tagged a b).1 (join_tagged a b).2.
Proof.
  intros (r & rs & Ea & Ha) (r' & rs' & Eb & Hb).
  exists r, (rs ++ b.2). simpl. rewrite Ea. split; [done|].
  rewrite Eb, foldl_app, foldl_absorb_cons. by rewrite <- Ha, <- Hb.
Qed.

Lemma pixel_count_absorb (a b : region) :
  pixel_count (absorb a b) = pixel_count a + pixel_count b.
Proof.
  by destruct a as [[[[x1 y1] x2] y2] p1], b as [[[[bx1 by1] bx2] by2] p2].
Qed.

Lemma sum_counts_app (l1 l2 : list region) :
  sum_counts (l1 ++ l2) = sum_counts l1 + sum_counts l2.
Proof. induction l1 as [|r l1 IH]; simpl; [done|]. rewrite IH. lia. Qed.

Lemma sum_counts_perm (l1 l2 : list region) :
  Permutation l1 l2 -> sum_counts l1 = sum_counts l2.
Proof. induction 1; simpl; lia. Qed.

Lemma is_union_count (o : region) (g : list region) :
  is_union o g -> pixel_count o = sum_counts g.
Proof.
  intros (r & rs & -> & ->). revert r.
  induction rs as [|r' rs IH]; intros r; [simpl; lia|].
  cbn [foldl]. rewrite IH. unfold sum_counts. cbn [foldr].
  rewrite pixel_count_absorb. lia.
Qed.

Lemma absorb_later_tags (gap : Z) (cur : tagged) (rest : list tagged) :
  is_union cur.1 cur.2 ->
  Forall (fun t => is_union t.1 t.2) rest ->
  let '(c, kept, _) := absorb_later (close_tagged gap) join_tagged cur rest in
  is_union c.1 c.2 /\ Forall (fun t => is_union t.1 t.2) kept /\
  Permutation (c.2 ++ concat (map snd kept)) (cur.2 ++ concat (map snd rest)).
Proof.
  intros Hc HF. revert cur Hc.
  induction HF as [|r rest Hr _ IH]; intros cur Hc; simpl.
  - auto.
  - destruct (close_tagged gap cur r).
    + specialize (IH (join_tagged cur r) (is_union_join _ _ Hc Hr)).
      destruct (absorb_later (close_tagged gap) join_tagged
                  (join_tagged cur r) rest) as [[c k] m].
      destruct IH as (? & ? & HP). repeat split; auto.
      rewrite HP. simpl. by rewrite <- app_assoc.
    + specialize (IH cur Hc).
      destruct (absorb_later (close_tagged gap) join_tagged cur rest)
        as [[c k] m].
      destruct IH as (? & ? & HP). repeat split; auto. simpl.
      rewrite !app_assoc, (Permutation_app_comm c.2 r.2),
              (Permutation_app_comm cur.2 r.2), <- !app_assoc.
      by apply Permutation_app_head.
Qed.

Lemma pass_rec_tags (gap : Z) (input : list region) (fuel : nat)
    (l out : list tagged) (m : bool) :
  (length l <= fuel)%nat ->
  tags_ok input l ->
  pass_rec (close_tagged gap) join_tagged fuel l = (out, m) ->
  tags_ok input out.
Proof.
  unfold tags_ok. revert input l out m.
  induction fuel as [|fuel IH]; intros input l out m Hl [HF HP].
  - destruct l; simpl in *; [|lia]. by intros [= <- <-].
  - destruct l as [|r rest]; simpl; [by intros [= <- <-]|].
    apply Forall_cons in HF as [Hr HF].
    pose proof (absorb_later_tags gap r rest Hr HF) as HA.
    pose proof (absorb_later_length (close_tagged gap) join_tagged r rest) as HL.
    destruct (absorb_later (close_tagged gap) join_tagged r rest)
      as [[c k] m1].
    destruct HA as (Hc & Hk & HPk).
    destruct (pass_rec (close_tagged gap) join_tagged fuel k)
      as [out' m'] eqn:Hpass.
    intros [= <- <-]. simpl in Hl.
    destruct (IH (concat (map snd k)) k out' m' ltac:(lia) (conj Hk (reflexivity _)) Hpass)
      as [HFo HPo].
    split; [by constructor|].
    simpl. rewrite HPo, HPk. exact HP.
Qed.

Lemma ForallOrdPairs_lookup {A} (R : A -> A -> Prop) (l : list A)
    (i j : nat) (a b : A) :
  ForallOrdPairs R l -> (i < j)%nat ->
  l !! i = Some a -> l !! j = Some b -> R a b.
Proof.
  intros HO. revert i j.
  induction HO as [|x l HF _ IH]; intros i j Hij Hi Hj; [done|].
  destruct j as [|j]; [lia|]. destruct i as [|i]; simpl in *.
  - injection Hi as ->. rewrite Forall_forall in HF. apply HF.
    by eapply list_elem_of_lookup_2.
  - apply (IH i j); auto. lia.
Qed.

Lemma merge_close_regions_rec (regions : list region) (gap : Z) :
  merge_close_regions regions gap =
  match regions with
  | [] => Ok []
  | _ => loop_rec (close_enough gap) absorb (S (length regions)) regions
  end.
Proof.
  unfold merge_close_regions. destruct regions; [done|].
  apply merge_loop_rec.
Qed.

Lemma merge_close_regions_idle (regions : list region) (gap : Z) :
  ForallOrdPairs (fun a b => close_enough gap a b = false) regions ->
  merge_close_regions regions gap = Ok regions.
Proof.
  intros HO. rewrite merge_close_regions_rec. destruct regions as [|r rs]; [done|].
  cbn [loop_rec]. by rewrite (pass_rec_none _ _ _ _ (le_n _) HO).
Qed.

(** C3: [merge_close_regions] always returns; run again on its own output it
    returns that output unchanged; and no two regions at different
    positions of the output pass the expanded-bounds test of the code (they
    neither overlap nor lie within [gap] of each other), in either order. *)
Theorem merge_reaches_fixpoint (regions : list region) (gap : Z) :
  exists out,
    merge_close_regions regions gap = Ok out /\
    merge_close_regions out gap = Ok out /\
    forall i j ri rj,
      i <> j -> out !! i = Some ri -> out !! j = Some rj ->
      close_enough gap ri rj = false.
Proof.
  assert (H : exists out, merge_close_regions regions gap = Ok out /\
            ForallOrdPairs (fun a b => close_enough gap a b = false) out).
  { rewrite merge_close_regions_rec. destruct regions as [|r rs].
    - exists []. split; [done|constructor].
    - destruct (loop_rec_inv (close_enough gap) absorb (fun _ => True)
                  (S (length (r :: rs))) (r :: rs)) as (out & Ho & _ & _ & HO);
        auto. exists out. auto. }
  destruct H as (out & Ho & HO). exists out.
  split; [exact Ho|]. split; [by apply merge_close_regions_idle|].
  intros i j ri rj Hij Hi Hj.
  destruct (Nat.lt_total i j) as [Hlt|[->|Hlt]]; [|done|].
  - exact (ForallOrdPairs_lookup _ out i j ri rj HO Hlt Hi Hj).
  - rewrite close_enough_sym.
    exact (ForallOrdPairs_lookup _ out j i rj ri HO Hlt Hj Hi).
Qed.

Lemma Forall2_tags (l : list tagged) :
  Forall (fun t => is_union t.1 t.2) l ->
  Forall2 is_union (map fst l) (map snd l).
Proof. induction 1; simpl; constructor; auto. Qed.

Lemma sum_counts_groups (out : list region) (groups : list (list region)) :
  Forall2 (fun o g => pixel_count o = sum_counts g) out groups ->
  sum_counts out = sum_counts (concat groups).
Proof.
  induction 1 as [|o g out groups Hog _ IH]; simpl; [done|].
  rewrite sum_counts_app. lia.
Qed.

Lemma tags_ok_init (l : list region) : tags_ok l (map tag l).
Proof.
  split.
  - apply Forall_map, Forall_forall. intros x _. apply is_union_tag.
  - induction l as [|x l IH]; simpl; [done|by constructor].
Qed.

(** C6: [merge_close_regions] always returns, and its output regions stand
    for disjoint groups of input regions that together are exactly the
    input: each output region is the union of the boxes of its group and its
    [pixel_count] is the sum of the [pixel_count]s of the group, so the
    total count of the output is the total count of the input. *)
Theorem merge_adds_pixel_counts (regions : list region) (gap : Z) :
  exists out groups,
    merge_close_regions regions gap = Ok out /\
    Permutation (concat groups) regions /\
    Forall2 is_union out groups /\
    Forall2 (fun o g => pixel_count o = sum_counts g) out groups /\
    sum_counts out = sum_counts regions.
Proof.
  assert (H : exists outT, merge_close_regions regions gap = Ok (map fst outT)
            /\ tags_ok regions outT).
  { rewrite merge_close_regions_rec. destruct regions as [|r rs].
    - exists []. split; [done|]. split; [constructor|done].
    - set (l := r :: rs).
      destruct (loop_rec_inv (close_tagged gap) join_tagged (tags_ok l)
                  (S (length l)) (map tag l)) as (outT & Ho & HT & _).
      + intros l0 out m HT Hp. eapply pass_rec_tags; eauto.
      + apply tags_ok_init.
      + rewrite length_map. lia.
      + exists outT. split; [|done].
        pose proof (loop_rec_map (close_tagged gap) join_tagged
          (close_enough gap) absorb fst (fun _ _ => eq_refl)
          (fun _ _ => eq_refl) (S (length l)) (map tag l)) as HM.
        rewrite Ho, map_map in HM. simpl in HM. rewrite map_id in HM.
        exact HM. }
  destruct H as (outT & Ho & HF & HP).
  exists (map fst outT), (map snd outT).
  assert (HU : Forall2 is_union (map fst outT) (map snd outT))
    by by apply Forall2_tags.
  assert (HC : Forall2 (fun o g => pixel_count o = sum_counts g)
                 (map fst outT) (map snd outT)).
  { eapply Forall2_impl; [exact HU|]. intros o g. apply is_union_count. }
  repeat split; auto.
  rewrite (sum_counts_groups _ _ HC). by apply sum_counts_perm.
Qed.

(** Scenario C: two 35 by 35 blocks 2 pixels apart merge under a gap of 3;
    10 pixels apart they stay separate. *)
Example scenario_two_blocks :
  merge_close_regions [(0, 0, 35, 35, 1225); (37, 0, 72, 35, 1225)] 3 =
    Ok [(0, 0, 72, 35, 2450)] /\
  merge_close_regions [(0, 0, 35, 35, 1225); (45, 0, 80, 35, 1225)] 3 =
    Ok [(0, 0, 35, 35, 1225); (45, 0, 80, 35, 1225)].
Proof. vm_compute. by split. Qed.

(** A chain that one pass does not close: the first region is close to the
    third only after absorbing the second, whose turn comes later. *)
Example merge_needs_second_pass :
  merge_pass 3 [(0, 0, 10, 10, 1); (30, 0, 40, 10, 2); (12, 0, 28, 10, 4)] =
    ([(0, 0, 28, 10, 5); (30, 0, 40, 10, 2)], true) /\
  merge_close_regions
    [(0, 0, 10, 10, 1); (30, 0, 40, 10, 2); (12, 0, 28, 10, 4)] 3 =
    Ok [(0, 0, 40, 10, 7)].
Proof. vm_compute. by split. Qed.

(** ** From the sheet to the crop boxes *)

Section MergeRecForall.
Context {T : Type} (close : T -> T -> bool) (join : T -> T -> T)
        (P : T -> Prop).
Hypothesis join_P : forall a b, P a -> P b -> P (join a b).

Lemma absorb_later_Forall (cur : T) (rest : list T) :
  P cur -> Forall P rest ->
  let '(c, kept, _) := absorb_later close join cur rest in
  P c /\ Forall P kept.
Proof.
  intros Hc HF. revert cur Hc.
  induction HF as [|r rest Hr _ IH]; intros cur Hc; simpl; [auto|].
  destruct (close cur r).
  - specialize (IH (join cur r) (join_P _ _ Hc Hr)).
    by destruct (absorb_later close join (join cur r) rest) as [[c k] m].
  - specialize (IH cur Hc).
    destruct (absorb_later close join cur rest) as [[c k] m].
    destruct IH. auto.
Qed.

Lemma pass_rec_Forall (fuel : nat) (l : list T) :
  Forall P l -> Forall P (pass_rec close join fuel l).1.
Proof.
  revert l. induction fuel as [|fuel IH]; intros l HF; simpl; [constructor|].
  destruct HF as [|r rest Hr HF]; simpl; [constructor|].
  pose proof (absorb_later_Forall r rest Hr HF) as HA.
  destruct (absorb_later close join r rest) as [[c k] m].
  destruct HA as [Hc Hk]. specialize (IH k Hk).
  destruct (pass_rec close join fuel k) as [out m']. simpl in *.
  by constructor.
Qed.
End MergeRecForall.

Lemma absorb_well_formed (w h : Z) (a b : region) :
  well_formed w h a -> well_formed w h b -> well_formed w h (absorb a b).
Proof.
  destruct a as [[[[x1 y1] x2] y2] p1], b as [[[[bx1 by1] bx2] by2] p2].
  unfold well_formed, absorb, region_min_x, region_min_y, region_max_x,
    region_max_y. simpl. lia.
Qed.

Lemma merge_close_regions_well_formed (w h gap : Z) (regions : list region) :
  Forall (well_formed w h) regions ->
  exists out, merge_close_regions regions gap = Ok out /\
              Forall (well_formed w h) out.
Proof.
  intros HF. rewrite merge_close_regions_rec. destruct regions as [|r rs].
  { exists []. auto. }
  destruct (loop_rec_inv (close_enough gap) absorb (Forall (well_formed w h))
              (S (length (r :: rs))) (r :: rs)) as (out & Ho & HP & _); auto.
  - intros l out m Hl Hp.
    pose proof (pass_rec_Forall (close_enough gap) absorb (well_formed w h)
                  (absorb_well_formed w h) (length l) l Hl) as H.
    by rewrite Hp in H.
  - by exists out.
Qed.

Lemma kept_regions_well_formed (visited : list bool) (w h min_size : Z)
    (comps : list component) :
  Forall (fun c => connected_component visited w h (comp_cells c) /\
                   is_bbox (comp_state c) (comp_cells c)) comps ->
  Forall (well_formed w h) (kept_regions min_size comps).
Proof.
  intros HF. unfold kept_regions. rewrite Forall_forall in HF.
  apply Forall_forall.
  intros r (c & -> & [_ Hc]%list_elem_of_filter)%list_elem_of_fmap.
  destruct (HF c Hc)
    as [(s & _ & Hreach) [HC [yl HL] [yr HR] [xt HT] [xb HB] _]].
  pose proof (HC _ _ HR) as [? _]. pose proof (HC _ _ HB) as [_ ?].
  apply Hreach, reach_pass in HL as [[? ?] _].
  apply Hreach, reach_pass in HR as [[? ?] _].
  apply Hreach, reach_pass in HT as [[? ?] _].
  apply Hreach, reach_pass in HB as [[? ?] _].
  unfold well_formed, region_of, region_min_x, region_min_y, region_max_x,
    region_max_y. simpl. lia.
Qed.

Lemma insert_by_key_perm (r : region) (l : list region) :
  Permutation (insert_by_key r l) (r :: l).
Proof.
  induction l as [|r' l IH]; simpl; [done|].
  destruct (key_le (sort_key r) (sort_key r')); [done|].
  rewrite IH. apply perm_swap.
Qed.

Lemma sort_regions_perm (l : list region) : Permutation (sort_regions l) l.
Proof.
  induction l as [|r l IH]; simpl; [done|].
  rewrite insert_by_key_perm. by constructor.
Qed.

Lemma crop_box_positive (w h : Z) (r : region) :
  well_formed w h r ->
  0 < box_width (crop_box w h r) /\ 0 < box_height (crop_box w h r).
Proof.
  destruct r as [[[[x1 y1] x2] y2] p].
  unfold well_formed, crop_box, box_width, box_height, region_min_x,
    region_min_y, region_max_x, region_max_y. simpl. lia.
Qed.

(** C10: for every sheet the steps up to the sort return, and every region
    they hand to the crop loop is well-formed within the sheet, so that its
    padded and clamped crop box has strictly positive width and height. *)
Theorem pipeline_crop_boxes_positive (img : Image) :
  exists regions,
    sheet_regions img = Ok regions /\
    forall r, In r regions ->
      well_formed (im_w img) (im_h img) r /\
      0 < box_width (crop_box (im_w img) (im_h img) r) /\
      0 < box_height (crop_box (im_w img) (im_h img) r).
Proof.
  set (w := im_w img). set (h := im_h img).
  destruct (background_mask_length img) as (mask & Hmask & HL).
  destruct (extract_components_spec mask w h HL)
    as (comps & Hrun & _ & _ & _ & HF).
  pose proof (kept_regions_well_formed mask w h 30 comps HF) as Hwf.
  destruct (merge_close_regions_well_formed w h 3 _ Hwf) as (out & Hout & Hwf').
  exists (sort_regions (drop_artifacts out)).
  split.
  - unfold sheet_regions. fold w h. unfold background_mask in Hmask.
    fold w h in Hmask. rewrite Hmask. simpl.
    rewrite find_sprite_regions_erasure, Hrun. simpl. by rewrite Hout.
  - intros r Hin.
    assert (Hr : well_formed w h r).
    { rewrite Forall_forall in Hwf'. apply Hwf'.
      apply list_elem_of_In in Hin. rewrite sort_regions_perm in Hin.
      unfold drop_artifacts in Hin. by apply list_elem_of_filter in Hin as [_ ?]. }
    split; [done|]. by apply crop_box_positive.
Qed.

(** A sheet on which the pipeline does produce a region: a 30 by 30 block
    of blue on white. *)
Example sheet_regions_block :
  sheet_regions
    (mkImage 34 34 (fun x y =>
       if (2 <=? x) && (x <? 32) && (2 <=? y) && (y <? 32)
       then (0, 0, 255, 255) else (255, 255, 255, 255))) =
  Ok [(2, 2, 32, 32, 900)].
Proof. vm_compute. reflexivity. Qed.

(** ** The crop loop *)

Lemma make_background_transparent_total (sprite : Image) :
  exists out, make_background_transparent sprite = Ok out.
Proof.
  unfold make_background_transparent, transparent_run.
  rewrite transparent_loop_mark.
  destruct (mark_loop_spec (is_bg sprite) (im_w sprite) (im_h sprite)
              (fill_fuel (border_seeds (im_w sprite) (im_h sprite))
                 (all_false (im_w sprite * im_h sprite)))
              (border_seeds (im_w sprite) (im_h sprite))
              (all_false (im_w sprite * im_h sprite)))
    as (mask & cells & -> & _).
  { apply length_all_false. }
  { apply count_false_fuel. }
  by eexists.
Qed.

Lemma cut_sprite_spec (img : Image) (i : nat) (r : region) :
  exists sprite,
    make_background_transparent (crop_of img r) = Ok sprite /\
    cut_sprite img i r =
      Ok (mkSaved (S i) sprite,
          (box_width (crop_box (im_w img) (im_h img) r),
           box_height (crop_box (im_w img) (im_h img) r))).
Proof.
  unfold cut_sprite, crop_of.
  destruct (crop_box (im_w img) (im_h img) r) as [[[x1 y1] x2] y2].
  destruct (make_background_transparent_total (crop img x1 y1 x2 y2))
    as (sprite & Hs).
  exists sprite. split; [done|]. by rewrite Hs.
Qed.

(** * Further properties *)

(** ** PixelClassifier *)

(** X1: the classification does not depend on the order of the channels:
    swapping red and green, or green and blue, gives the same answer (and
    so does every permutation), for every threshold. *)
Theorem is_background_pixel_symmetric (r g b t : Z) :
  is_background_pixel g r b t = is_background_pixel r g b t /\
  is_background_pixel r b g t = is_background_pixel r g b t /\
  is_background_pixel b g r t = is_background_pixel r g b t.
Proof.
  repeat split; apply eq_true_iff_eq; rewrite !is_background_pixel_int; lia.
Qed.

(** X2: a pixel classified as background (default threshold) has every
    channel at least 218 and any two channels less than 12 apart: dark or
    saturated pixels are never background. *)
Theorem background_pixel_channels (r g b : Z) :
  is_background_pixel r g b default_threshold = true ->
  (218 <= r /\ 218 <= g /\ 218 <= b) /\
  (Z.abs (r - g) < 12 /\ Z.abs (g - b) < 12 /\ Z.abs (r - b) < 12).
Proof.
  rewrite is_background_pixel_int. unfold default_threshold. lia.
Qed.

Lemma background_pixel_channels_witness :
  (218 <= 218 /\ 218 <= 229 /\ 218 <= 229) /\
  (Z.abs (218 - 229) < 12 /\ Z.abs (229 - 229) < 12 /\ Z.abs (218 - 229) < 12).
Proof. apply (background_pixel_channels 218 229 229). reflexivity. Defined.

(** ** BackgroundMask on any list of marks *)

Lemma border_seeds_last_cell (w h : Z) :
  0 < w -> 0 < h -> In (w - 1, h - 1) (border_seeds w h).
Proof. intros Hw Hh. apply In_border_seeds. lia. Qed.

(** A queue that holds a cell whose index lies beyond the marks ends the
    loop with an index error. *)
Lemma mark_loop_index_error (pass : Z -> Z -> bool) (w h : Z) (fuel : nat)
    (queue : list coord) (marks : list bool) (bx by_ : Z) :
  In (bx, by_) queue -> inside w h bx by_ ->
  (length marks <= cell_index w bx by_)%nat ->
  (4 * count_false marks + length queue <= fuel)%nat ->
  mark_loop pass w h fuel queue marks = IndexError.
Proof.
  intros Hin Hi Hlen. revert queue marks Hin Hlen.
  induction fuel as [|fuel IH]; intros queue marks Hin Hlen Hfuel.
  { destruct queue; simpl in *; [done|lia]. }
  destruct queue as [|[x y] queue]; [done|].
  cbn [mark_loop]. simpl in Hfuel.
  assert (Hskip : (x, y) <> (bx, by_) ->
            mark_loop pass w h fuel queue marks = IndexError).
  { intros Hne. apply IH; [|done|lia]. by destruct Hin as [?|?]. }
  destruct (out_of_bounds w h x y) eqn:Hob.
  { apply Hskip. intros [= -> ->]. by apply out_of_bounds_true in Hob. }
  destruct (marks !! cell_index w x y) as [[|]|] eqn:Hm; [| |done].
  { apply Hskip. intros [= -> ->]. apply lookup_lt_Some in Hm. lia. }
  assert (Hne : (x, y) <> (bx, by_)).
  { intros [= -> ->]. apply lookup_lt_Some in Hm. lia. }
  destruct (pass x y); simpl; [|by apply Hskip].
  rewrite IH; [done| | |].
  - apply in_app_iff. left. by destruct Hin as [?|?].
  - by rewrite length_insert.
  - pose proof (count_false_insert _ _ Hm). rewrite length_app. simpl. lia.
Qed.

(** X3: started on any list of marks with one entry per pixel,
    [flood_fill_background] returns; it keeps the length and every mark that
    was set; it sets a mark only at a background-like pixel; and it marks
    every background-like pixel of the border. *)
Theorem flood_fill_adds_background_marks (img : Image) (visited : list bool) :
  length visited = Z.to_nat (im_w img * im_h img) ->
  exists mask,
    flood_fill_background img visited = Ok mask /\
    length mask = length visited /\
    (forall i, visited !! i = Some true -> mask !! i = Some true) /\
    (forall x y, inside (im_w img) (im_h img) x y ->
       mask !! cell_index (im_w img) x y = Some true ->
       visited !! cell_index (im_w img) x y = Some true \/
       is_bg img x y = true) /\
    (forall x y, inside (im_w img) (im_h img) x y ->
       on_border (im_w img) (im_h img) (x, y) -> is_bg img x y = true ->
       mask !! cell_index (im_w img) x y = Some true).
Proof.
  intros HL. set (w := im_w img) in *. set (h := im_h img) in *.
  unfold flood_fill_background. fold w h. rewrite fill_loop_mark. fold w h.
  destruct (mark_loop_spec (is_bg img) w h
              (fill_fuel (border_seeds w h) visited) (border_seeds w h) visited)
    as (mask & cells & -> & [ML MM MN MC MQ MD]); [done| |].
  { apply count_false_fuel. }
  exists mask. split; [done|]. split; [done|]. split; [|split].
  - intros i Hv. apply MM. by left.
  - intros x y Hi [Hv|(x0 & y0 & Hin & E)]%MM; [by left|]. right.
    destruct (MC x0 y0 Hin) as (Hi0 & Hp & _).
    by destruct (cell_index_inj w h x y x0 y0 Hi Hi0 E) as [-> ->].
  - intros x y Hi Hb Hp. apply MQ; auto. by apply border_seeds_on_border.
Qed.

Lemma flood_fill_adds_background_marks_witness :
  let img := mkImage 2 2 (fun x y => if x =? 0 then (255, 255, 255, 255)
                                     else (10, 20, 30, 255)) in
  let visited := [false; true; false; false] in
  exists mask,
    flood_fill_background img visited = Ok mask /\
    length mask = length visited /\
    (forall i, visited !! i = Some true -> mask !! i = Some true) /\
    (forall x y, inside (im_w img) (im_h img) x y ->
       mask !! cell_index (im_w img) x y = Some true ->
       visited !! cell_index (im_w img) x y = Some true \/
       is_bg img x y = true) /\
    (forall x y, inside (im_w img) (im_h img) x y ->
       on_border (im_w img) (im_h img) (x, y) -> is_bg img x y = true ->
       mask !! cell_index (im_w img) x y = Some true).
Proof.
  intros img visited. apply (flood_fill_adds_background_marks img visited).
  reflexivity.
Defined.

(** X4: a second fill started on the finished mask changes nothing. *)
Theorem flood_fill_idempotent (img : Image) :
  exists mask,
    background_mask img = Ok mask /\
    flood_fill_background img mask = Ok mask.
Proof.
  set (w := im_w img). set (h := im_h img).
  unfold background_mask, flood_fill_background. fold w h.
  rewrite fill_loop_mark. fold w h.
  destruct (mark_loop_spec (is_bg img) w h
              (fill_fuel (border_seeds w h) (all_false (w * h)))
              (border_seeds w h) (all_false (w * h)))
    as (mask & cells & -> & [HL HM HN HC HQ HD]).
  { apply length_all_false. }
  { apply count_false_fuel. }
  rewrite length_all_false in HL.
  exists mask. split; [done|].
  rewrite fill_loop_mark. fold w h.
  destruct (mark_loop_spec (is_bg img) w h
              (fill_fuel (border_seeds w h) mask) (border_seeds w h) mask)
    as (mask2 & cells2 & Hrun & [ML MM MN MC MQ MD]); [done| |].
  { apply count_false_fuel. }
  rewrite Hrun. simpl. f_equal.
  apply mark_loop_marks in Hrun.
  destruct cells2 as [|[x y] cells2]; [done|exfalso].
  destruct (MC x y) as (Hi & Hp & Hf & HR); [by left|].
  apply (reach_marked (is_bg img) w h _ mask) in HR.
  - simpl in HR. congruence.
  - intros x1 y1 Hs Hi1 Hp1. by apply HQ.
  - intros x1 y1 x' y' Hi1 Hp1 Hm Hn Hi' Hp'.
    apply HM in Hm as [Hf0|(x0 & y0 & Hin & E)];
      [by apply lookup_all_false in Hf0|].
    destruct (HC x0 y0 Hin) as (Hi0 & _).
    destruct (cell_index_inj w h x1 y1 x0 y0 Hi1 Hi0 E) as [-> ->].
    by apply (HD x0 y0).
Qed.

(** X5: on a sheet with at least one pixel, a list of marks shorter than
    [w * h] makes [flood_fill_background] raise [IndexError]; it never
    returns a mask. *)
Theorem flood_fill_short_marks_raise (img : Image) (visited : list bool) :
  0 < im_w img -> 0 < im_h img ->
  (length visited < Z.to_nat (im_w img * im_h img))%nat ->
  flood_fill_background img visited = IndexError.
Proof.
  intros Hw Hh HL. unfold flood_fill_background. rewrite fill_loop_mark.
  rewrite (mark_loop_index_error _ _ _ _ _ _ (im_w img - 1) (im_h img - 1));
    [done| | | |].
  - by apply border_seeds_last_cell.
  - unfold inside. lia.
  - unfold cell_index. nia.
  - apply count_false_fuel.
Qed.

Lemma flood_fill_short_marks_raise_witness :
  flood_fill_background (mkImage 2 2 (fun _ _ => (255, 255, 255, 255)))
    [false; false; false] = IndexError.
Proof.
  apply (flood_fill_short_marks_raise
           (mkImage 2 2 (fun _ _ => (255, 255, 255, 255)))
           [false; false; false]); simpl; lia.
Defined.

(** ** RegionExtractor: what the regions look like *)

Lemma length_range (n : Z) : length (range n) = Z.to_nat n.
Proof. unfold range. by rewrite length_map, length_seq. Qed.

Lemma length_row_major (w h : Z) :
  length (row_major w h) = (Z.to_nat h * Z.to_nat w)%nat.
Proof.
  unfold row_major. rewrite <- (length_range h).
  generalize (range h) as ys. intros ys.
  induction ys as [|y ys IH]; [done|].
  cbn [flat_map]. rewrite length_app, length_map, length_range.
  etrans; [apply (f_equal (Nat.add (Z.to_nat w))), IH|]. simpl. lia.
Qed.

(** Distinct cells inside a box are at most as many as the box has. *)
Lemma cells_in_box_count (cells : list coord) (a b c d : Z) :
  NoDup cells -> cells <> [] ->
  (forall x y, In (x, y) cells -> a <= x <= b /\ c <= y <= d) ->
  Z.of_nat (length cells) <= (b - a + 1) * (d - c + 1).
Proof.
  intros HN Hne Hbox.
  assert (a <= b /\ c <= d) as [Hab Hcd].
  { destruct cells as [|[x0 y0] cells0]; [done|].
    destruct (Hbox x0 y0) as [? ?]; [by left|lia]. }
  set (k := map (fun p : coord => (p.1 + a, p.2 + c))
              (row_major (b - a + 1) (d - c + 1))).
  assert (Hsub : forall p, p ∈ cells -> p ∈ k).
  { intros [x y] Hin%list_elem_of_In. destruct (Hbox x y Hin) as [Hx Hy].
    apply list_elem_of_In, in_map_iff. exists (x - a, y - c). simpl.
    split; [f_equal; lia|]. apply In_row_major. unfold inside. lia. }
  pose proof (submseteq_length _ _ (NoDup_submseteq _ _ HN Hsub)) as Hle.
  unfold k in Hle. rewrite length_map, length_row_major in Hle.
  nia.
Qed.

Lemma NoDup_component (comps : list component) (c : component) :
  NoDup (all_cells comps) -> In c comps -> NoDup (comp_cells c).
Proof.
  unfold all_cells. induction comps as [|c0 comps IH]; [done|].
  simpl. intros (H0 & _ & Hrest)%NoDup_app [<-|Hin]; auto.
Qed.

(** Distinct positions that all hold [false] are at most as many as the
    list has [false] entries. *)
Lemma false_positions_count (l : list bool) (positions : list nat) :
  NoDup positions ->
  (forall i, In i positions -> l !! i = Some false) ->
  (length positions <= count_false l)%nat.
Proof.
  intros HN. revert l. induction HN as [|i positions Hi HN IH]; intros l Hf.
  { simpl. lia. }
  assert (Hl : l !! i = Some false) by (apply Hf; by left).
  pose proof (count_false_insert l i Hl) as Hc.
  specialize (IH (<[i := true]> l)). simpl.
  enough (length positions <= count_false (<[i := true]> l))%nat by lia.
  apply IH. intros j Hj. rewrite list_lookup_insert_ne.
  - apply Hf. by right.
  - intros <-. by apply Hi, list_elem_of_In.
Qed.

Lemma component_region_facts (visited : list bool) (w h : Z) (c : component) :
  connected_component visited w h (comp_cells c) ->
  is_bbox (comp_state c) (comp_cells c) ->
  NoDup (comp_cells c) ->
  let r := region_of (comp_state c) in
  well_formed w h r /\
  region_width r = comp_width c /\ region_height r = comp_height c /\
  pixel_count r = Z.of_nat (length (comp_cells c)) /\
  1 <= pixel_count r <= region_width r * region_height r.
Proof.
  intros (s & Hs & Hreach) HB HN.
  pose proof HB as [HC [yl HL] [yr HR] [xt HT] [xb HBt] Hcount].
  pose proof (HC _ _ HR) as [? _]. pose proof (HC _ _ HBt) as [_ ?].
  apply Hreach, reach_pass in HL as [[? ?] _].
  apply Hreach, reach_pass in HR as [[? ?] _].
  apply Hreach, reach_pass in HT as [[? ?] _].
  apply Hreach, reach_pass in HBt as [[? ?] _].
  assert (Hne : comp_cells c <> []) by (intros E; by rewrite E in Hs).
  pose proof (cells_in_box_count _ _ _ _ _ HN Hne HC) as Harea.
  assert (0 < length (comp_cells c))%nat.
  { destruct (comp_cells c); [done|simpl; lia]. }
  unfold well_formed, region_of, region_width, region_height, comp_width,
    comp_height, pixel_count, region_min_x, region_min_y, region_max_x,
    region_max_y. simpl. rewrite Hcount. lia.
Qed.

(** X6: on a mask with one entry per pixel [find_sprite_regions] returns,
    and every region it returns lies within the sheet, is at least
    [min_size] wide and high, and counts at least one pixel and at most as
    many as its box holds. *)
Theorem found_regions_fit (visited : list bool) (w h min_size : Z) :
  length visited = Z.to_nat (w * h) ->
  exists regions,
    find_sprite_regions visited w h min_size = Ok regions /\
    forall r, In r regions ->
      well_formed w h r /\
      min_size <= region_width r /\ min_size <= region_height r /\
      1 <= pixel_count r <= region_width r * region_height r.
Proof.
  intros HL.
  destruct (extract_components_spec visited w h HL)
    as (comps & Hrun & HN & _ & _ & HF).
  exists (kept_regions min_size comps).
  split; [by rewrite find_sprite_regions_erasure, Hrun|].
  intros r Hin. unfold kept_regions in Hin.
  apply list_elem_of_In, list_elem_of_fmap in Hin as (c & -> & Hc).
  apply list_elem_of_filter in Hc as [Hok Hc].
  rewrite Forall_forall in HF. destruct (HF c Hc) as [Hcc Hbb].
  apply list_elem_of_In in Hc.
  destruct (component_region_facts visited w h c Hcc Hbb
              (NoDup_component _ _ HN Hc)) as (Hwf & Hw & Hh & _ & Hcnt).
  apply size_ok_iff in Hok. simpl in Hw, Hh, Hcnt. rewrite Hw, Hh in Hcnt.
  rewrite Hw, Hh. tauto.
Qed.

Lemma found_regions_fit_witness :
  let visited := [true; true; true; true;
                  true; false; false; true;
                  false; true; true; true] in
  exists regions,
    find_sprite_regions visited 4 3 1 = Ok regions /\
    forall r, In r regions ->
      well_formed 4 3 r /\
      1 <= region_width r /\ 1 <= region_height r /\
      1 <= pixel_count r <= region_width r * region_height r.
Proof. intros visited. apply (found_regions_fit visited 4 3 1). reflexivity. Defined.

Lemma sum_counts_kept (min_size : Z) (comps : list component) :
  Forall (fun c => region_pixels (comp_state c) =
                   Z.of_nat (length (comp_cells c))) comps ->
  sum_counts (kept_regions min_size comps) <=
  Z.of_nat (length (all_cells comps)).
Proof.
  unfold kept_regions, all_cells.
  induction 1 as [|c comps Hc _ IH]; [done|].
  cbn [map concat]. rewrite length_app, Nat2Z.inj_add.
  destruct (decide (size_ok min_size (comp_state c) = true)) as [Hok|Hok].
  - rewrite filter_cons_True by done. simpl.
    change (pixel_count (region_of (comp_state c)))
      with (region_pixels (comp_state c)). lia.
  - rewrite filter_cons_False by done. lia.
Qed.

(** X7: the pixel counts of the regions [find_sprite_regions] returns add
    up to at most the number of pixels the mask leaves unmarked. *)
Theorem found_regions_count_foreground (visited : list bool)
    (w h min_size : Z) :
  length visited = Z.to_nat (w * h) ->
  exists regions,
    find_sprite_regions visited w h min_size = Ok regions /\
    sum_counts regions <= Z.of_nat (count_false visited).
Proof.
  intros HL.
  destruct (extract_components_spec visited w h HL)
    as (comps & Hrun & HN & Hcells & _ & HF).
  exists (kept_regions min_size comps).
  split; [by rewrite find_sprite_regions_erasure, Hrun|].
  etrans; [apply sum_counts_kept|].
  { eapply Forall_impl; [exact HF|]. intros c [_ HB]. apply HB. }
  apply inj_le.
  rewrite <- (length_map (fun p : coord => cell_index w p.1 p.2)).
  apply false_positions_count.
  - apply NoDup_fmap_2_strong; [|done].
    intros [x y] [x' y'] Hin%list_elem_of_In Hin'%list_elem_of_In E.
    destruct (Hcells x y Hin) as [Hi _], (Hcells x' y' Hin') as [Hi' _].
    by destruct (cell_index_inj w h x y x' y' Hi Hi' E) as [-> ->].
  - intros i ([x y] & <- & Hin)%in_map_iff. by apply Hcells.
Qed.

Lemma found_regions_count_foreground_witness :
  let visited := [true; true; true; true;
                  true; false; false; true;
                  false; true; true; true] in
  exists regions,
    find_sprite_regions visited 4 3 1 = Ok regions /\
    sum_counts regions <= Z.of_nat (count_false visited).
Proof.
  intros visited. apply (found_regions_count_foreground visited 4 3 1).
  reflexivity.
Defined.

(** On that mask both components are kept, and their counts 2 and 1 add up
    to the three unmarked pixels. *)
Example found_regions_count_foreground_example :
  find_sprite_regions [true; true; true; true;
                       true; false; false; true;
                       false; true; true; true] 4 3 1 =
  Ok [(1, 1, 3, 2, 2); (0, 2, 1, 3, 1)].
Proof. reflexivity. Qed.

(** X8: when the mask marks every pixel (in particular on a sheet without
    pixels) there is no region. *)
Theorem no_foreground_no_regions (visited : list bool) (w h min_size : Z) :
  length visited = Z.to_nat (w * h) ->
  (forall i, visited !! i <> Some false) ->
  find_sprite_regions visited w h min_size = Ok [].
Proof.
  intros HL Hall.
  destruct (extract_components_spec visited w h HL)
    as (comps & Hrun & _ & Hcells & _ & HF).
  rewrite find_sprite_regions_erasure, Hrun. simpl. f_equal.
  destruct comps as [|c comps]; [done|exfalso].
  apply Forall_cons in HF as [[(s & Hs & _) _] _].
  destruct s as [x y]. destruct (Hcells x y) as [_ Hf].
  - apply In_all_cells. exists c. split; [by left|done].
  - by apply Hall in Hf.
Qed.

Lemma no_foreground_no_regions_witness :
  find_sprite_regions [true; true; true; true] 2 2 30 = Ok [].
Proof.
  apply (no_foreground_no_regions [true; true; true; true] 2 2 30).
  - reflexivity.
  - intros [|[|[|[|i]]]]; simpl; discriminate.
Defined.

(** ** RegionExtractor on a mask that is too short *)

Lemma region_loop_fuel (visited : list bool) (w h : Z) (fuel : nat)
    (queue : list coord) (st : bfs_state) :
  (4 * count_false (region_visited st) + length queue <= fuel)%nat ->
  region_loop visited w h fuel queue st <> OutOfFuel.
Proof.
  revert queue st. induction fuel as [|fuel IH]; intros queue st Hfuel.
  { destruct queue; simpl in *; [done|lia]. }
  destruct queue as [|[cx cy] queue]; [done|].
  cbn [region_loop]. simpl in Hfuel.
  destruct (out_of_bounds w h cx cy); [apply IH; lia|].
  destruct (visited !! Z.to_nat (cy * w + cx)) as [[|]|]; [apply IH; lia| |done].
  destruct (region_visited st !! Z.to_nat (cy * w + cx)) as [[|]|] eqn:Hm;
    [apply IH; lia| |done].
  apply IH. simpl. pose proof (count_false_insert _ _ Hm).
  rewrite length_app. simpl. lia.
Qed.

Lemma scan_cell_fuel (visited : list bool) (w h min_size : Z)
    (acc : list region * list bool) (c : coord) :
  scan_cell visited w h min_size acc c <> OutOfFuel.
Proof.
  destruct acc as [regions rv], c as [x y]. unfold scan_cell.
  destruct (visited !! Z.to_nat (y * w + x)) as [[|]|]; try done.
  destruct (rv !! Z.to_nat (y * w + x)) as [[|]|]; try done.
  pose proof (region_loop_fuel visited w h (fill_fuel [(x, y)] rv) [(x, y)]
                (mkBfs rv x y x y 0)) as Hf.
  destruct (region_loop _ _ _ _ _ _) as [st| |]; try done.
  exfalso. apply Hf; [|done]. unfold fill_fuel. simpl.
  pose proof (count_false_le rv). lia.
Qed.

Lemma scan_index_error (visited : list bool) (w h min_size : Z)
    (l : list coord) (acc : list region * list bool) (bx by_ : Z) :
  In (bx, by_) l ->
  (length visited <= Z.to_nat (by_ * w + bx))%nat ->
  for_each (scan_cell visited w h min_size) l acc = IndexError.
Proof.
  intros Hin Hlen. revert acc. induction l as [|c l IH]; intros acc; [done|].
  cbn [for_each].
  pose proof (scan_cell_fuel visited w h min_size acc c) as Hfuel.
  destruct (scan_cell visited w h min_size acc c) as [acc'| |] eqn:Hstep;
    [|done|done].
  simpl. destruct Hin as [->|Hin]; [|by apply IH].
  exfalso. destruct acc as [regions rv]. unfold scan_cell in Hstep.
  by rewrite (lookup_ge_None_2 visited _ Hlen) in Hstep.
Qed.

(** X9: on a sheet with at least one pixel, a mask shorter than [w * h]
    makes [find_sprite_regions] raise [IndexError]; it never returns
    regions. *)
Theorem find_regions_short_mask_raise (visited : list bool) (w h min_size : Z) :
  0 < w -> 0 < h ->
  (length visited < Z.to_nat (w * h))%nat ->
  find_sprite_regions visited w h min_size = IndexError.
Proof.
  intros Hw Hh HL. unfold find_sprite_regions.
  rewrite (scan_index_error _ _ _ _ _ _ (w - 1) (h - 1)); [done| |].
  - apply In_row_major. unfold inside. lia.
  - nia.
Qed.

Lemma find_regions_short_mask_raise_witness :
  find_sprite_regions [false; true; false] 2 2 1 = IndexError.
Proof.
  apply (find_regions_short_mask_raise [false; true; false] 2 2 1);
    simpl; lia.
Defined.

(** ** RegionMerger: what becomes of the input regions *)

Lemma box_contains_refl (r : region) : box_contains r r.
Proof. unfold box_contains. lia. Qed.

Lemma box_contains_trans (a b c : region) :
  box_contains a b -> box_contains b c -> box_contains a c.
Proof. unfold box_contains. lia. Qed.

Lemma absorb_contains (a b : region) :
  box_contains (absorb a b) a /\ box_contains (absorb a b) b.
Proof.
  destruct a as [[[[x1 y1] x2] y2] p1], b as [[[[bx1 by1] bx2] by2] p2].
  unfold box_contains, absorb, region_min_x, region_min_y, region_max_x,
    region_max_y. simpl. lia.
Qed.

Lemma foldl_absorb_contains (rs : list region) (a : region) :
  box_contains (foldl absorb a rs) a /\
  forall r, In r rs -> box_contains (foldl absorb a rs) r.
Proof.
  revert a. induction rs as [|b rs IH]; intros a.
  { split; [apply box_contains_refl|by intros ? []]. }
  cbn [foldl]. destruct (IH (absorb a b)) as [Hab Hrs].
  destruct (absorb_contains a b) as [Ha Hb].
  split; [by eapply box_contains_trans|].
  intros r [<-|Hin]; [by eapply box_contains_trans|by apply Hrs].
Qed.

Lemma is_union_contains (o : region) (g : list region) (r : region) :
  is_union o g -> In r g -> box_contains o r.
Proof.
  intros (r0 & rs & -> & ->) [<-|Hin].
  - apply (proj1 (foldl_absorb_contains rs r0)).
  - by apply (proj2 (foldl_absorb_contains rs r0)).
Qed.

(** The merge, run on tagged regions: its output with the groups of input
    regions behind it. *)
Lemma merge_close_regions_tagged (regions : list region) (gap : Z) :
  exists outT,
    merge_close_regions regions gap = Ok (map fst outT) /\
    tags_ok regions outT /\
    (length outT <= length regions)%nat.
Proof.
  rewrite merge_close_regions_rec. destruct regions as [|r rs].
  { exists []. split; [done|]. split; [|done]. split; [constructor|done]. }
  set (l := r :: rs).
  destruct (loop_rec_inv (close_tagged gap) join_tagged (tags_ok l)
              (S (length l)) (map tag l)) as (outT & Ho & HT & HL & _).
  - intros l0 out m HT Hp. eapply pass_rec_tags; eauto.
  - apply tags_ok_init.
  - rewrite length_map. lia.
  - exists outT. rewrite length_map in HL. split; [|done].
    pose proof (loop_rec_map (close_tagged gap) join_tagged
      (close_enough gap) absorb fst (fun _ _ => eq_refl)
      (fun _ _ => eq_refl) (S (length l)) (map tag l)) as HM.
    rewrite Ho, map_map in HM. simpl in HM. rewrite map_id in HM.
    exact HM.
Qed.

(** X10: merging loses no region: the output is never longer than the
    input, and the box of every input region lies inside the box of some
    output region. *)
Theorem merge_covers_input (regions : list region) (gap : Z) :
  exists out,
    merge_close_regions regions gap = Ok out /\
    (length out <= length regions)%nat /\
    forall r, In r regions -> exists o, In o out /\ box_contains o r.
Proof.
  destruct (merge_close_regions_tagged regions gap)
    as (outT & Hrun & [HF HP] & HL).
  exists (map fst outT). split; [done|]. split; [by rewrite length_map|].
  intros r Hin. apply list_elem_of_In in Hin. rewrite <- HP in Hin.
  apply list_elem_of_In, in_concat in Hin as (g & Hg & Hr).
  apply in_map_iff in Hg as (t & <- & Ht).
  exists t.1. split; [apply in_map_iff; by exists t|].
  rewrite Forall_forall in HF. apply list_elem_of_In in Ht.
  apply (is_union_contains t.1 t.2 r); [by apply HF|done].
Qed.

Lemma ForallOrdPairs_of_lookup {A} (R : A -> A -> Prop) (l : list A) :
  (forall i j a b, (i < j)%nat -> l !! i = Some a -> l !! j = Some b ->
     R a b) ->
  ForallOrdPairs R l.
Proof.
  induction l as [|x l IH]; intros H; constructor.
  - apply Forall_forall. intros y [j Hj]%list_elem_of_lookup.
    apply (H 0%nat (S j)); [lia|done|done].
  - apply IH. intros i j a b Hij Hi Hj. apply (H (S i) (S j)); [lia|done|done].
Qed.

(** X11: [merge_close_regions] returns its input unchanged exactly when no
    two of the input regions pass the closeness test. *)
Theorem merge_unchanged_iff (regions : list region) (gap : Z) :
  merge_close_regions regions gap = Ok regions <-> far_apart gap regions.
Proof.
  split.
  - intros Hrun i j ri rj Hij Hi Hj.
    assert (HO : ForallOrdPairs (fun a b => close_enough gap a b = false)
                   regions).
    { rewrite merge_close_regions_rec in Hrun.
      destruct regions as [|r rs]; [constructor|].
      destruct (loop_rec_inv (close_enough gap) absorb (fun _ => True)
                  (S (length (r :: rs))) (r :: rs)) as (out & Ho & _ & _ & HO);
        auto.
      rewrite Ho in Hrun. by injection Hrun as ->. }
    exact (ForallOrdPairs_lookup _ regions i j ri rj HO Hij Hi Hj).
  - intros Hfar. apply merge_close_regions_idle.
    by apply ForallOrdPairs_of_lookup.
Qed.

(** ** The sort of line 198 *)

Lemma key_le_iff (a b : Z * Z) :
  key_le a b = true <-> a.1 < b.1 \/ (a.1 = b.1 /\ a.2 <= b.2).
Proof.
  unfold key_le.
  rewrite orb_true_iff, andb_true_iff, Z.ltb_lt, Z.eqb_eq, Z.leb_le. done.
Qed.

Lemma key_ordered_total (a b : region) :
  key_le (sort_key a) (sort_key b) = false -> key_ordered b a.
Proof.
  unfold key_ordered. rewrite <- not_true_iff_false, !key_le_iff. lia.
Qed.

Lemma key_ordered_trans (a b c : region) :
  key_ordered a b -> key_ordered b c -> key_ordered a c.
Proof. unfold key_ordered. rewrite !key_le_iff. lia. Qed.

Lemma insert_by_key_ordered (r : region) (l : list region) :
  ForallOrdPairs key_ordered l -> ForallOrdPairs key_ordered (insert_by_key r l).
Proof.
  induction 1 as [|r' l Hr' HO IH]; simpl.
  { constructor; constructor. }
  destruct (key_le (sort_key r) (sort_key r')) eqn:E.
  - constructor; [|by constructor].
    constructor; [done|].
    eapply Forall_impl; [exact Hr'|]. intros x Hx.
    by apply (key_ordered_trans r r' x).
  - constructor; [|done].
    rewrite insert_by_key_perm.
    constructor; [by apply key_ordered_total|done].
Qed.

Lemma filter_insert_by_key (k : Z * Z) (r : region) (l : list region) :
  filter (fun x => sort_key x = k) (insert_by_key r l) =
  filter (fun x => sort_key x = k) (r :: l).
Proof.
  induction l as [|r' l IH]; simpl; [done|].
  destruct (key_le (sort_key r) (sort_key r')) eqn:E; [done|].
  rewrite (filter_cons _ r'), IH, !(filter_cons _ r), (filter_cons _ r').
  destruct (decide (sort_key r = k)) as [Hr|Hr]; [|done].
  destruct (decide (sort_key r' = k)) as [Hr'|Hr']; [|done].
  exfalso. rewrite <- not_true_iff_false, key_le_iff, Hr, Hr' in E. lia.
Qed.

Lemma sort_regions_ordered (regions : list region) :
  ForallOrdPairs key_ordered (sort_regions regions).
Proof.
  induction regions as [|r regions IH]; simpl; [constructor|].
  by apply insert_by_key_ordered.
Qed.

(** X12: the sort puts the regions in the order of their keys (row bucket
    of 50 pixels, then left edge), keeps exactly the regions it was given,
    and keeps regions with equal keys in the order they had. *)
Theorem sort_regions_sorted_stable (regions : list region) :
  Permutation (sort_regions regions) regions /\
  ForallOrdPairs key_ordered (sort_regions regions) /\
  forall k, filter (fun r => sort_key r = k) (sort_regions regions) =
            filter (fun r => sort_key r = k) regions.
Proof.
  split; [apply sort_regions_perm|]. split; [apply sort_regions_ordered|].
  intros k. induction regions as [|r regions IH]; simpl; [done|].
    by rewrite filter_insert_by_key, !filter_cons, IH.
Qed.

(** ** What reaches the crop loop *)

Lemma ForallOrdPairs_filter {A} (R : A -> A -> Prop) (P : A -> Prop)
    `{forall x, Decision (P x)} (l : list A) :
  ForallOrdPairs R l -> ForallOrdPairs R (filter P l).
Proof.
  induction 1 as [|x l Hx _ IH]; [constructor|].
  rewrite filter_cons. destruct (decide (P x)); [|done].
  constructor; [|done].
  apply Forall_forall. intros y [_ Hy]%list_elem_of_filter.
  rewrite Forall_forall in Hx. by apply Hx.
Qed.

Lemma ForallOrdPairs_perm {A} (R : A -> A -> Prop) (l l' : list A) :
  (forall a b, R a b -> R b a) ->
  Permutation l l' -> ForallOrdPairs R l -> ForallOrdPairs R l'.
Proof.
  intros Hsym. induction 1 as [|x l l' HP IH|x y l|l l' l'' _ IH1 _ IH2];
    intros HO; auto.
  - inversion_clear HO as [|? ? Hx HO']. constructor; [|auto].
    by rewrite <- HP.
  - inversion_clear HO as [|? ? Hy HO']. inversion_clear HO' as [|? ? Hx HO''].
    inversion_clear Hy as [|? ? Hyx Hy']. repeat constructor; auto.
Qed.

Lemma absorb_sized_in_sheet (w h m : Z) (a b : region) :
  sized_in_sheet w h m a -> sized_in_sheet w h m b ->
  sized_in_sheet w h m (absorb a b).
Proof.
  intros [Ha Ha'] [Hb Hb']. split; [by apply absorb_well_formed|].
  destruct a as [[[[x1 y1] x2] y2] p1], b as [[[[bx1 by1] bx2] by2] p2].
  unfold region_width, region_height, absorb, region_min_x, region_min_y,
    region_max_x, region_max_y in *. simpl in *. lia.
Qed.

Lemma kept_regions_sized (visited : list bool) (w h min_size : Z)
    (comps : list component) :
  NoDup (all_cells comps) ->
  Forall (fun c => connected_component visited w h (comp_cells c) /\
                   is_bbox (comp_state c) (comp_cells c)) comps ->
  Forall (sized_in_sheet w h min_size) (kept_regions min_size comps).
Proof.
  intros HN HF. unfold kept_regions. apply Forall_forall.
  intros r (c & -> & [Hok Hc]%list_elem_of_filter)%list_elem_of_fmap.
  rewrite Forall_forall in HF. destruct (HF c Hc) as [Hcc Hbb].
  apply list_elem_of_In in Hc.
  destruct (component_region_facts visited w h c Hcc Hbb
              (NoDup_component _ _ HN Hc)) as (Hwf & Hw & Hh & _).
  apply size_ok_iff in Hok. simpl in Hw, Hh.
  split; [done|]. rewrite Hw, Hh. done.
Qed.

(** Steps 1 to 3 return; what they hand to the filter lies within the
    sheet, is at least 30 wide and high, and holds no two regions that pass
    the closeness test. *)
Lemma sheet_regions_merged (img : Image) :
  exists merged,
    sheet_regions img = Ok (sort_regions (drop_artifacts merged)) /\
    Forall (sized_in_sheet (im_w img) (im_h img) 30) merged /\
    ForallOrdPairs (fun a b => close_enough 3 a b = false) merged.
Proof.
  set (w := im_w img). set (h := im_h img).
  destruct (background_mask_length img) as (mask & Hmask & HL).
  destruct (extract_components_spec mask w h HL)
    as (comps & Hrun & HN & _ & _ & HF).
  pose proof (kept_regions_sized mask w h 30 comps HN HF) as Hsized.
  assert (Hm : exists merged,
            merge_close_regions (kept_regions 30 comps) 3 = Ok merged /\
            Forall (sized_in_sheet w h 30) merged /\
            ForallOrdPairs (fun a b => close_enough 3 a b = false) merged).
  { rewrite merge_close_regions_rec.
    destruct (kept_regions 30 comps) as [|r rs] eqn:E.
    { exists []. split; [done|]. split; constructor. }
    destruct (loop_rec_inv (close_enough 3) absorb
                (Forall (sized_in_sheet w h 30))
                (S (length (r :: rs))) (r :: rs))
      as (out & Ho & HP & _ & HO); auto.
    - intros l out m Hl Hp.
      pose proof (pass_rec_Forall (close_enough 3) absorb
                    (sized_in_sheet w h 30) (absorb_sized_in_sheet w h 30)
                    (length l) l Hl) as H.
      by rewrite Hp in H.
    - by exists out. }
  destruct Hm as (merged & Hmerge & HP & HO).
  exists merged. split; [|done].
  unfold sheet_regions. fold w h. unfold background_mask in Hmask.
  fold w h in Hmask. rewrite Hmask. simpl.
  rewrite find_sprite_regions_erasure, Hrun. simpl. by rewrite Hmerge.
Qed.

Lemma In_sheet_regions (merged : list region) (r : region) :
  In r (sort_regions (drop_artifacts merged)) <->
  In r merged /\ 500 < pixel_count r.
Proof.
  rewrite <- !list_elem_of_In, sort_regions_perm. unfold drop_artifacts.
  rewrite list_elem_of_filter. tauto.
Qed.

(** X13: for every sheet, the regions that reach the crop loop come in the
    order of their keys, each counts more than 500 pixels, and each box is
    at least 30 wide and 30 high. *)
Theorem sheet_regions_large_and_ordered (img : Image) :
  exists regions,
    sheet_regions img = Ok regions /\
    ForallOrdPairs key_ordered regions /\
    forall r, In r regions ->
      500 < pixel_count r /\ 30 <= region_width r /\ 30 <= region_height r.
Proof.
  destruct (sheet_regions_merged img) as (merged & Hrun & HP & _).
  exists (sort_regions (drop_artifacts merged)). split; [done|]. split.
  - apply sort_regions_ordered.
  - intros r [Hin Hcount]%In_sheet_regions. split; [done|].
    rewrite Forall_forall in HP. apply list_elem_of_In in Hin.
    by destruct (HP r Hin) as [_ ?].
Qed.

Lemma far_boxes_disjoint (w h : Z) (a b : region) :
  close_enough 3 a b = false ->
  boxes_disjoint (crop_box w h a) (crop_box w h b).
Proof.
  destruct a as [[[[x1 y1] x2] y2] p1], b as [[[[bx1 by1] bx2] by2] p2].
  unfold close_enough, boxes_disjoint, crop_box. simpl.
  rewrite <- not_true_iff_false, !andb_true_iff, !Z.leb_le, !Z.geb_le. lia.
Qed.

(** X14: no two regions that reach the crop loop pass the closeness test
    with gap 3, and their padded and clamped crop boxes share no pixel of
    the sheet. *)
Theorem sheet_crops_disjoint (img : Image) :
  exists regions,
    sheet_regions img = Ok regions /\
    forall i j ri rj,
      i <> j -> regions !! i = Some ri -> regions !! j = Some rj ->
      close_enough 3 ri rj = false /\
      boxes_disjoint (crop_box (im_w img) (im_h img) ri)
                     (crop_box (im_w img) (im_h img) rj).
Proof.
  destruct (sheet_regions_merged img) as (merged & Hrun & _ & HO).
  exists (sort_regions (drop_artifacts merged)). split; [done|].
  assert (HO' : ForallOrdPairs (fun a b => close_enough 3 a b = false)
                  (sort_regions (drop_artifacts merged))).
  { apply (ForallOrdPairs_perm _ (drop_artifacts merged)).
    - intros a b. by rewrite close_enough_sym.
    - symmetry. apply sort_regions_perm.
    - by apply ForallOrdPairs_filter. }
  intros i j ri rj Hij Hi Hj.
  assert (close_enough 3 ri rj = false) as Hfar.
  { destruct (Nat.lt_total i j) as [Hlt|[->|Hlt]]; [|done|].
    - exact (ForallOrdPairs_lookup _ _ i j ri rj HO' Hlt Hi Hj).
    - rewrite close_enough_sym.
      exact (ForallOrdPairs_lookup _ _ j i rj ri HO' Hlt Hj Hi). }
  split; [done|]. by apply far_boxes_disjoint.
Qed.

(** ** The transparency pass, seen from its caller *)

(** The pass returns the input with [clear_alpha] applied at the cells that
    the border-seeded marking of the input collects. *)
Lemma make_background_transparent_cells (sprite : Image) :
  exists mask cells,
    mark_loop (is_bg sprite) (im_w sprite) (im_h sprite)
      (fill_fuel (border_seeds (im_w sprite) (im_h sprite))
         (all_false (im_w sprite * im_h sprite)))
      (border_seeds (im_w sprite) (im_h sprite))
      (all_false (im_w sprite * im_h sprite)) = Ok (mask, cells) /\
    marked_by (is_bg sprite) (im_w sprite) (im_h sprite)
      (border_seeds (im_w sprite) (im_h sprite))
      (all_false (im_w sprite * im_h sprite)) mask cells /\
    make_background_transparent sprite = Ok (foldl clear_alpha sprite cells).
Proof.
  destruct (mark_loop_spec (is_bg sprite) (im_w sprite) (im_h sprite)
              (fill_fuel (border_seeds (im_w sprite) (im_h sprite))
                 (all_false (im_w sprite * im_h sprite)))
              (border_seeds (im_w sprite) (im_h sprite))
              (all_false (im_w sprite * im_h sprite)))
    as (mask & cells & Hrun & HM).
  { apply length_all_false. }
  { apply count_false_fuel. }
  exists mask, cells. split; [done|]. split; [done|].
  unfold make_background_transparent, transparent_run.
  by rewrite transparent_loop_mark, Hrun.
Qed.

Lemma is_bg_foldl_clear_alpha (cells : list coord) (img : Image) (x y : Z) :
  is_bg (foldl clear_alpha img cells) x y = is_bg img x y.
Proof.
  revert img. induction cells as [|c cells IH]; intros img; [done|].
  cbn [foldl]. by rewrite IH, is_bg_clear_alpha.
Qed.

(** X17: running the transparency pass on its own result changes nothing:
    the second result has the size and the pixels of the first. *)
Theorem make_background_transparent_idempotent (sprite : Image) :
  exists out out2,
    make_background_transparent sprite = Ok out /\
    make_background_transparent out = Ok out2 /\
    im_w out2 = im_w out /\ im_h out2 = im_h out /\
    forall x y, getpixel out2 x y = getpixel out x y.
Proof.
  destruct (make_background_transparent_cells sprite)
    as (mask & cells & Hrun & _ & Hout).
  set (out := foldl clear_alpha sprite cells) in *.
  destruct (foldl_clear_alpha_size cells sprite) as [Hw Hh]. fold out in Hw, Hh.
  exists out, (foldl clear_alpha out cells).
  split; [done|]. split; [|split; [|split]].
  - unfold make_background_transparent, transparent_run.
    rewrite transparent_loop_mark, Hw, Hh.
    rewrite (mark_loop_ext (is_bg out) (is_bg sprite))
      by apply is_bg_foldl_clear_alpha.
    by rewrite Hrun.
  - apply foldl_clear_alpha_size.
  - apply foldl_clear_alpha_size.
  - intros x y. unfold out. rewrite !getpixel_foldl_clear_alpha.
    destruct (decide ((x, y) ∈ cells)); [|done].
    apply with_alpha_zero_idem.
Qed.

(** X18: the transparency pass makes every background-like pixel on the
    border of the sprite transparent, and leaves every pixel that is not
    background-like exactly as it was. *)
Theorem transparency_border_and_foreground (sprite : Image) :
  exists out,
    make_background_transparent sprite = Ok out /\
    (forall x y, inside (im_w sprite) (im_h sprite) x y ->
       on_border (im_w sprite) (im_h sprite) (x, y) ->
       is_bg sprite x y = true ->
       getpixel out x y = with_alpha_zero (getpixel sprite x y)) /\
    (forall x y, is_bg sprite x y = false ->
       getpixel out x y = getpixel sprite x y).
Proof.
  destruct (make_background_transparent_cells sprite)
    as (mask & cells & _ & [HL HM HN HC HQ HD] & Hout).
  exists (foldl clear_alpha sprite cells). split; [done|]. split.
  - intros x y Hi Hb Hp. rewrite getpixel_foldl_clear_alpha.
    rewrite decide_True; [done|]. apply list_elem_of_In.
    assert (Hm : mask !! cell_index (im_w sprite) x y = Some true).
    { apply HQ; auto. by apply border_seeds_on_border. }
    apply HM in Hm as [Hf|(x0 & y0 & Hin & E)];
      [by apply lookup_all_false in Hf|].
    destruct (HC x0 y0 Hin) as (Hi0 & _).
    by destruct (cell_index_inj _ _ x y x0 y0 Hi Hi0 E) as [-> ->].
  - intros x y Hp. rewrite getpixel_foldl_clear_alpha.
    rewrite decide_False; [done|]. intros Hin%list_elem_of_In.
    destruct (HC x y Hin) as (_ & Hp' & _). congruence.
Qed.

(** ** The crop loop and the whole sheet *)

Lemma make_background_transparent_size (sprite out : Image) :
  make_background_transparent sprite = Ok out ->
  im_w out = im_w sprite /\ im_h out = im_h sprite.
Proof.
  destruct (make_background_transparent_cells sprite)
    as (mask & cells & _ & _ & Hout).
  rewrite Hout. intros [= <-]. apply foldl_clear_alpha_size.
Qed.

Lemma crop_of_size (img : Image) (r : region) :
  im_w (crop_of img r) = box_width (crop_box (im_w img) (im_h img) r) /\
  im_h (crop_of img r) = box_height (crop_box (im_w img) (im_h img) r).
Proof.
  unfold crop_of.
  by destruct (crop_box (im_w img) (im_h img) r) as [[[x1 y1] x2] y2].
Qed.

Lemma cut_sprites_spec (img : Image) (start : nat) (regions : list region) :
  exists out,
    cut_sprites img start regions = Ok out /\
    length out = length regions /\
    forall k s, out !! k = Some s ->
      exists r, regions !! k = Some r /\
        saved_number s.1 = S (start + k) /\
        make_background_transparent (crop_of img r) = Ok (saved_image s.1) /\
        s.2 = (box_width (crop_box (im_w img) (im_h img) r),
               box_height (crop_box (im_w img) (im_h img) r)).
Proof.
  revert start. induction regions as [|r regions IH]; intros start.
  { exists []. split; [done|]. split; [done|]. by intros []. }
  destruct (cut_sprite_spec img start r) as (sprite & Hs & Hcut).
  destruct (IH (S start)) as (rest & Hrest & Hlen & Hall).
  eexists. cbn [cut_sprites]. rewrite Hcut. simpl. rewrite Hrest. simpl.
  split; [done|]. split; [simpl; by rewrite Hlen|].
  intros [|k] s Hk; simpl in *.
  - injection Hk as <-. exists r. simpl. by rewrite Nat.add_0_r.
  - destruct (Hall k s Hk) as (r' & Hr' & Hnum & Hmbt & Hsz).
    exists r'. split; [done|]. split; [lia|done].
Qed.

Lemma crop_box_bounds (w h : Z) (r : region) :
  well_formed w h r ->
  region_width r <= box_width (crop_box w h r) <= w /\
  region_height r <= box_height (crop_box w h r) <= h.
Proof.
  destruct r as [[[[x1 y1] x2] y2] p].
  unfold well_formed, crop_box, box_width, box_height, region_width,
    region_height, region_min_x, region_min_y, region_max_x, region_max_y.
  simpl. lia.
Qed.

(** X16: for every sheet [slice_spritesheet] returns; it saves one sprite
    per region that reaches the crop loop, numbered 1, 2, ... in that
    order; the sizes it reports are the sizes of the saved buffers; and
    every sprite is at least 30 by 30 pixels and no larger than the
    sheet. *)
Theorem slice_spritesheet_output (img : Image) :
  exists regions out,
    sheet_regions img = Ok regions /\
    slice_spritesheet img = Ok out /\
    length out = length regions /\
    forall k s, out !! k = Some s ->
      saved_number s.1 = S k /\
      im_w (saved_image s.1) = s.2.1 /\ im_h (saved_image s.1) = s.2.2 /\
      30 <= s.2.1 <= im_w img /\ 30 <= s.2.2 <= im_h img.
Proof.
  destruct (sheet_regions_merged img) as (merged & Hrun & HP & _).
  set (regions := sort_regions (drop_artifacts merged)) in *.
  destruct (cut_sprites_spec img 0 regions) as (out & Hcut & Hlen & Hall).
  exists regions, out. split; [done|].
  split; [unfold slice_spritesheet; by rewrite Hrun|]. split; [done|].
  intros k s Hk.
  destruct (Hall k s Hk) as (r & Hr & Hnum & Hmbt & Hsz).
  apply make_background_transparent_size in Hmbt as [Hw Hh].
  destruct (crop_of_size img r) as [Hcw Hch].
  assert (Hin : In r merged).
  { apply (In_sheet_regions merged r), list_elem_of_In.
    by eapply list_elem_of_lookup_2. }
  rewrite Forall_forall in HP. apply list_elem_of_In in Hin.
  destruct (HP r Hin) as (Hwf & Hrw & Hrh).
  destruct (crop_box_bounds _ _ r Hwf) as [Hbw Hbh].
  rewrite Hsz, Hw, Hh, Hcw, Hch. simpl.
  split; [done|]. split; [done|]. split; [done|]. lia.
Qed.

(** X15: a sheet narrower or lower than 30 pixels yields no sprite. *)
Theorem small_sheet_no_sprites (img : Image) :
  im_w img < 30 \/ im_h img < 30 ->
  slice_spritesheet img = Ok [].
Proof.
  intros Hsmall.
  destruct (sheet_regions_merged img) as (merged & Hrun & HP & _).
  unfold slice_spritesheet. rewrite Hrun. simpl.
  destruct merged as [|r merged]; [done|exfalso].
  apply Forall_cons in HP as [(Hwf & Hrw & Hrh) _].
  destruct (crop_box_bounds _ _ r Hwf). lia.
Qed.

Lemma small_sheet_no_sprites_witness :
  slice_spritesheet
    (mkImage 29 200 (fun x y => if x <? 20 then (0, 0, 0, 255)
                                else (255, 255, 255, 255))) = Ok [].
Proof.
  apply (small_sheet_no_sprites
           (mkImage 29 200 (fun x y => if x <? 20 then (0, 0, 0, 255)
                                       else (255, 255, 255, 255)))).
  left. simpl. lia.
Defined.




(** ** The alpha channel and the mask *)

Lemma is_bg_same_rgb (img1 img2 : Image) (x y : Z) :
  (getpixel img1 x y).1 = (getpixel img2 x y).1 ->
  is_bg img1 x y = is_bg img2 x y.
Proof.
  unfold is_bg.
  destruct (getpixel img1 x y) as [[[r1 g1] b1] a1],
           (getpixel img2 x y) as [[[r2 g2] b2] a2].
  simpl. by intros [= -> -> ->].
Qed.

(** X20: the background mask does not look at the alpha channel: two sheets
    of the same size whose pixels agree on R, G and B get the same mask. *)
Theorem background_mask_ignores_alpha (img1 img2 : Image) :
  im_w img1 = im_w img2 -> im_h img1 = im_h img2 ->
  (forall x y, (getpixel img1 x y).1 = (getpixel img2 x y).1) ->
  background_mask img1 = background_mask img2.
Proof.
  intros Hw Hh Hrgb. unfold background_mask, flood_fill_background.
  rewrite !fill_loop_mark, Hw, Hh.
  by rewrite (mark_loop_ext (is_bg img1) (is_bg img2))
    by (intros x y; apply is_bg_same_rgb, Hrgb).
Qed.

Lemma background_mask_ignores_alpha_witness :
  background_mask (mkImage 3 2 (fun x y => (250, 250, 250, 255))) =
  background_mask (mkImage 3 2 (fun x y => (250, 250, 250, x + y))).
Proof.
  apply (background_mask_ignores_alpha
           (mkImage 3 2 (fun x y => (250, 250, 250, 255)))
           (mkImage 3 2 (fun x y => (250, 250, 250, x + y))));
    reflexivity.
Defined.

(** ** Collapsed crop boxes *)


(** The sheet with the 30 by 30 block: its one region has the crop box
    [(0, 0, 34, 34)] and is saved as sprite number 1, 34 by 34 pixels. *)
Example slice_spritesheet_block :
  (fun out => map (fun s : saved * (Z * Z) =>
                     (saved_number s.1, im_w (saved_image s.1),
                      im_h (saved_image s.1), s.2)) out) <$>
  slice_spritesheet
    (mkImage 34 34 (fun x y =>
       if (2 <=? x) && (x <? 32) && (2 <=? y) && (y <? 32)
       then (0, 0, 255, 255) else (255, 255, 255, 255))) =
  Ok [(1%nat, 34, 34, (34, 34))].
Proof. vm_compute. reflexivity. Qed.
